(** * Progressive collection of term pairs: the two collectors of the repository

    The repository holds two implementations of the same collection engine:

    - [scripts/scrape_duolingo_words.py] (module [Script] below): attaches to
      a running browser, reads the expected total with [-1] standing for
      "unknown", extracts pairs from [section ul li] items into a dict keyed
      by the pair, and writes one JSON line per pair;
    - [scraping/duolingo_scraper.py] (module [Scraper] below): opens its own
      browser, raises when the expected total cannot be read, extracts pairs
      from an absolute XPath into a dict from primary term to secondary term,
      writes a CSV file and inserts the terms into a relational store.

    Text is modelled as [string] (characters 0..255, one character per code
    point); Python integers as [Z]; dicts as [gmap], the dict used as a set
    ([Dict[Tuple[str, str], None]]) as [gset]; the rendered page as a tree of
    elements, where [inner_text] and [text_content] of an element both read
    the text of the text nodes below it; each round of a collection loop
    reads what the page answers in that round (the document at extraction
    time and whether the reveal-more driver acted) from a list, so a loop
    that has used up its list is still collecting.  Failures of the browser
    itself (a closed page, a lost connection) are outside the model; the
    failures that the code handles or provokes (a read on a missing element,
    a missing count heading, a failing call on the database session) are in
    it. *)

From Stdlib Require Import ZArith Ascii String.
From stdpp Require Import base list strings gmap sorting.

Local Open Scope Z_scope.

(** ** Python text primitives *)

Module Py.

Definition ord (a : ascii) : N := N_of_ascii a.

(** [str.isspace] on one character, for code points below 256. *)
Definition isspace (a : ascii) : bool :=
  let n := ord a in
  ((9 <=? n) && (n <=? 13) || (28 <=? n) && (n <=? 32)
   || (n =? 133) || (n =? 160))%N.

(** The class [\d] of [re], for code points below 256. *)
Definition isdigit (a : ascii) : bool :=
  let n := ord a in ((48 <=? n) && (n <=? 57))%N.

Definition lower_char (a : ascii) : ascii :=
  let n := ord a in
  if ((65 <=? n) && (n <=? 90)
      || (192 <=? n) && (n <=? 222) && negb (n =? 215))%N
  then ascii_of_N (n + 32) else a.

(** [s.lower()] *)
Fixpoint lower (s : string) : string :=
  match s with
  | EmptyString => EmptyString
  | String a s' => String (lower_char a) (lower s')
  end.

Definition is_empty (s : string) : bool :=
  match s with EmptyString => true | String _ _ => false end.

Fixpoint lstrip (s : string) : string :=
  match s with
  | EmptyString => EmptyString
  | String a s' => if isspace a then lstrip s' else s
  end.

Fixpoint rstrip (s : string) : string :=
  match s with
  | EmptyString => EmptyString
  | String a s' =>
      let r := rstrip s' in
      if isspace a && is_empty r then EmptyString else String a r
  end.

(** [s.strip()] *)
Definition strip (s : string) : string := rstrip (lstrip s).

Fixpoint startswith (p s : string) : bool :=
  match p, s with
  | EmptyString, _ => true
  | String a p', String b s' => bool_decide (a = b) && startswith p' s'
  | String _ _, EmptyString => false
  end.

(** [p in s] on strings *)
Fixpoint contains (p s : string) : bool :=
  startswith p s
  || match s with
     | EmptyString => false
     | String _ s' => contains p s'
     end.

Fixpoint take_while (f : ascii → bool) (s : string) : string :=
  match s with
  | EmptyString => EmptyString
  | String a s' => if f a then String a (take_while f s') else EmptyString
  end.

(** [re.search] with the pattern of one or more digits [\d+]: the leftmost
    maximal run of digits. *)
Fixpoint search_digits (s : string) : option string :=
  match s with
  | EmptyString => None
  | String a s' =>
      if isdigit a then Some (String a (take_while isdigit s'))
      else search_digits s'
  end.

Definition isdigit_or_comma (a : ascii) : bool :=
  isdigit a || bool_decide (a = ","%char).

(** [re.search] with the pattern of a digit followed by any number of
    digits and commas: the leftmost digit and the maximal run of digits and
    commas after it. *)
Fixpoint search_digits_commas (s : string) : option string :=
  match s with
  | EmptyString => None
  | String a s' =>
      if isdigit a then Some (String a (take_while isdigit_or_comma s'))
      else search_digits_commas s'
  end.

(** [s.replace] of every comma by the empty string. *)
Fixpoint remove_commas (s : string) : string :=
  match s with
  | EmptyString => EmptyString
  | String a s' =>
      if bool_decide (a = ","%char) then remove_commas s'
      else String a (remove_commas s')
  end.

(** Whether some character of [s] is a digit. *)
Fixpoint has_digit (s : string) : bool :=
  match s with
  | EmptyString => false
  | String a s' => isdigit a || has_digit s'
  end.

Definition digit_value (a : ascii) : Z := Z.of_N (ord a) - 48.

Fixpoint int_acc (acc : Z) (s : string) : Z :=
  match s with
  | EmptyString => acc
  | String a s' => int_acc (10 * acc + digit_value a) s'
  end.

(** [int(s)] on a string of decimal digits. *)
Definition int (s : string) : Z := int_acc 0 s.

(** The order of [sorted] on pairs of strings: Python compares tuples
    field by field and strings by code point. *)
Definition tuple_leb (x y : string * string) : bool :=
  if bool_decide (x.1 = y.1) then String.leb x.2 y.2
  else String.leb x.1 y.1.

Definition tuple_le (x y : string * string) : Prop := tuple_leb x y.

(** Strictly below, in that order. *)
Definition tuple_lt (x y : string * string) : Prop := tuple_le x y ∧ x ≠ y.

(** [sorted(l)] on a list of pairs of strings. *)
Definition sorted (l : list (string * string)) : list (string * string) :=
  merge_sort tuple_le l.

End Py.

(** ** The rendered document *)

Module Dom.

#[local] Unset Elimination Schemes.
Inductive node : Type :=
| Text (s : string)
| Elem (tag : string) (attrs : list (string * string)) (kids : list node).
#[local] Set Elimination Schemes.

Definition tag_of (n : node) : option string :=
  match n with Text _ => None | Elem t _ _ => Some t end.

Definition has_tag (t : string) (n : node) : bool :=
  bool_decide (tag_of n = Some t).

Definition children (n : node) : list node :=
  match n with Text _ => [] | Elem _ _ kids => kids end.

Fixpoint assoc (k : string) (l : list (string * string)) : option string :=
  match l with
  | [] => None
  | (k', v) :: l' => if bool_decide (k = k') then Some v else assoc k l'
  end.

Definition attr (k : string) (n : node) : option string :=
  match n with Text _ => None | Elem _ a _ => assoc k a end.

(** [textContent]: the text of every text node below, in document order. *)
Fixpoint text_content (n : node) : string :=
  match n with
  | Text s => s
  | Elem _ _ kids =>
      (fix go (ks : list node) : string :=
         match ks with
         | [] => EmptyString
         | k :: ks' => text_content k +:+ go ks'
         end) kids
  end.

(** The elements of a subtree in document order, its root included. *)
Fixpoint elems (n : node) : list node :=
  match n with
  | Text _ => []
  | Elem _ _ kids => n :: flat_map elems kids
  end.

(** The elements strictly below a node. *)
Definition descendants (n : node) : list node :=
  flat_map elems (children n).

(** [scope.locator(t)] for a tag name [t], from an element... *)
Definition locator_below (t : string) (n : node) : list node :=
  filter (λ e, has_tag t e = true) (descendants n).

(** ...and from the page. *)
Definition locator (t : string) (page : node) : list node :=
  filter (λ e, has_tag t e = true) (elems page).

(** [page.locator] with the selector [section ul li]: every [li] below a [ul] below a
    [section].  [sec] says that a [section] is among the ancestors, [ul]
    that a [ul] with a [section] above it is. *)
Fixpoint section_ul_li (sec ul : bool) (n : node) : list node :=
  match n with
  | Text _ => []
  | Elem t _ kids =>
      (if ul && bool_decide (t = "li") then [n] else [])
      ++ flat_map
           (section_ul_li (sec || bool_decide (t = "section"))
                          (ul || sec && bool_decide (t = "ul")))
           kids
  end.

(** One child step of an XPath: [/t] or [/t[i]] ([i] counted from 1 among
    the children with that tag). *)
Definition step : Type := string * option nat.

Definition child_step (s : step) (n : node) : list node :=
  let cs := filter (λ e, has_tag s.1 e = true) (children n) in
  match s.2 with
  | None => cs
  | Some i =>
      match i with
      | O => []
      | S j => option_list (cs !! j)
      end
  end.

Fixpoint child_steps (p : list step) (ctx : list node) : list node :=
  match p with
  | [] => ctx
  | s :: p' => child_steps p' (flat_map (child_step s) ctx)
  end.

(** The XPath that starts at every element whose [id] attribute is [v]
    and follows the child steps [p]. *)
Definition xpath_from_id (v : string) (p : list step) (page : node)
  : list node :=
  child_steps p
    (filter (λ e, bool_decide (attr "id" e = Some v) = true) (elems page)).



End Dom.

(** ** What both collection loops share *)

Module Engine.

Import Dom.

(** What the page answers in one round: the document as the extractor
    finds it, and whether the reveal-more driver performed an action
    (the returned boolean of [click_more_if_possible] and of
    [_click_more_if_available]). *)
Record round : Type := { page_of : node; driver_acted : bool }.

(** What a loop does that can be observed: an extraction pass with the
    accumulator size before and after the merge, a call of the reveal-more
    driver with its answer, the extra scroll and wait. *)
Inductive event : Type :=
| EvExtract (before after : Z)
| EvReveal (acted : bool)
| EvSettle.

(** How a loop ends.  [Collecting]: the rounds given were all executed and
    the loop is still running. *)
Inductive outcome : Type :=
| Done
| Stalled
| NoMoreControl
| Raised
| Collecting.

Record run (A : Type) : Type := {
  events : list event;
  exit : outcome;
  final : A;
  stagnation : Z
}.
Arguments events {A}.
Arguments exit {A}.
Arguments final {A}.
Arguments stagnation {A}.

Definition after_events {A} (evs : list event) (r : run A) : run A :=
  {| events := evs ++ events r; exit := exit r; final := final r;
     stagnation := stagnation r |}.

(** The same round with a driver that does nothing. *)
Definition silent (r : round) : round :=
  {| page_of := page_of r; driver_acted := false |}.

(** The extraction passes of a trace, each with the accumulator size
    before and after its merge. *)
Definition extract_sizes (e : event) : option (Z * Z) :=
  match e with EvExtract b a => Some (b, a) | _ => None end.

Definition extracts (evs : list event) : list (Z * Z) :=
  omap extract_sizes evs.

(** [scope.locator(t).first] read as text; [None] when nothing matches
    (the read then fails with a timeout). *)
Definition first_text (t : string) (scope : node) : option string :=
  text_content <$> head (locator_below t scope).

Definition nonempty (s : string) : bool := negb (Py.is_empty s).

Global Instance event_eq_dec : EqDecision event.
Proof. solve_decision. Defined.

Global Instance outcome_eq_dec : EqDecision outcome.
Proof. solve_decision. Defined.

End Engine.

(** ** scripts/scrape_duolingo_words.py *)

Module Script.

Import Dom Engine.

Definition parse_expected_count (text : string) : Z :=
  match Py.search_digits_commas text with
  | None => -1
  | Some g => Py.int (Py.remove_commas g)
  end.

(** The first [h2] that has the text [words] (the filter [has_text]
    ignores case and looks for a substring); reading the text of a missing
    element raises, which the function turns into [-1]. *)
Definition get_expected_count (page : node) : Z :=
  match head (filter (λ e, Py.contains "words" (Py.lower (text_content e)) = true)
                     (locator "h2" page)) with
  | None => -1
  | Some h2 => parse_expected_count (Py.strip (text_content h2))
  end.

(** One item of the loop of [extract_visible_words]. *)
Definition extract_item (results : gset (string * string)) (li : node)
  : gset (string * string) :=
  match first_text "h3" li, first_text "p" li with
  | Some h3, Some p =>
      let word := Py.strip h3 in
      let trans := Py.strip p in
      if nonempty word && nonempty trans
      then {[ (word, trans) ]} ∪ results
      else results
  | _, _ => results
  end.

(** The pair that an item gives, if it gives one. *)
Definition pair_of_item (li : node) : option (string * string) :=
  h3 ← first_text "h3" li;
  p ← first_text "p" li;
  if nonempty (Py.strip h3) && nonempty (Py.strip p)
  then Some (Py.strip h3, Py.strip p) else None.

Definition extract_visible_words (page : node) : gset (string * string) :=
  foldl extract_item ∅ (section_ul_li false false page).

(** The [while True] loop of [main]. *)
Fixpoint collect (expected : Z) (collected : gset (string * string))
    (stagnant_rounds : Z) (rounds : list round)
  : run (gset (string * string)) :=
  match rounds with
  | [] =>
      {| events := []; exit := Collecting; final := collected;
         stagnation := stagnant_rounds |}
  | r :: rounds' =>
      let visible := extract_visible_words (page_of r) in
      let before := Z.of_nat (size collected) in
      let collected := visible ∪ collected in
      let after := Z.of_nat (size collected) in
      if bool_decide (expected ≠ -1) && (expected <=? after) then
        {| events := [EvExtract before after]; exit := Done;
           final := collected; stagnation := stagnant_rounds |}
      else
        let loaded_more := driver_acted r in
        let evs :=
          EvExtract before after :: EvReveal loaded_more
          :: (if loaded_more then [] else [EvSettle]) in
        let stagnant_rounds :=
          if after =? before then stagnant_rounds + 1 else 0 in
        if 3 <=? stagnant_rounds then
          {| events := evs; exit := Stalled; final := collected;
             stagnation := stagnant_rounds |}
        else after_events evs (collect expected collected stagnant_rounds rounds')
  end.

(** The selector [section ul li h3] that [main] waits for. *)
Definition word_list_present (page : node) : bool :=
  bool_decide (Exists (λ li, locator_below "h3" li ≠ [])
                      (section_ul_li false false page)).

Record json_line : Type := { word : string; translation : string }.

Definition pair_of (j : json_line) : string * string :=
  (word j, translation j).

(** The lines written to [OUT_PATH], as the objects given to
    [json.dumps]. *)
Definition write_output (collected : gset (string * string)) : list json_line :=
  (λ wt, {| word := wt.1; translation := wt.2 |})
    <$> Py.sorted (elements collected).

Record report : Type := {
  expected_count : Z;
  loop : run (gset (string * string));
  lines : list json_line;
  warning : bool
}.

(** [main], from the page found when the wait for the word list ends;
    [None] is the [SystemExit] of a word list that never appears. *)
Definition main (page0 : node) (rounds : list round) : option report :=
  if word_list_present page0 then
    let expected := get_expected_count page0 in
    let r := collect expected ∅ 0 rounds in
    Some {| expected_count := expected;
            loop := r;
            lines := write_output (final r);
            warning := bool_decide (expected ≠ -1)
                       && negb (Z.of_nat (size (final r)) =? expected) |}
  else None.

End Script.

(** ** scraping/duolingo_scraper.py *)

Module Scraper.

Import Dom Engine.

(** [None] is the [RuntimeError] raised when no heading gives a count. *)
Fixpoint expected_from_headers (headers : list node) : option Z :=
  match headers with
  | [] => None
  | h :: headers' =>
      let text := text_content h in
      if Py.is_empty text then expected_from_headers headers'
      else if Py.contains "word" (Py.lower text) then
        match Py.search_digits text with
        | Some g => Some (Py.int g)
        | None => expected_from_headers headers'
        end
      else expected_from_headers headers'
  end.

Definition _get_expected_word_count (page : node) : option Z :=
  expected_from_headers (locator "h2" page).

(** The child steps of the XPath of [_scrape_visible_words], after its
    start at the element whose [id] is [root]. *)
Definition item_path : list step :=
  [("div", Some 2%nat); ("div", None); ("div", Some 3%nat); ("div", None);
   ("div", Some 2%nat); ("div", None); ("section", Some 2%nat);
   ("ul", None); ("li", None); ("div", None); ("div", None)].

Definition item_locator (page : node) : list node :=
  xpath_from_id "root" item_path page.

(** One item of the loop of [_scrape_visible_words]; [None] is the timeout
    raised by [text_content] on a container without [h3] or without [p]. *)
Definition scrape_item (words : gmap string string) (container : node)
  : option (gmap string string) :=
  h3 ← first_text "h3" container;
  p ← first_text "p" container;
  if Py.is_empty h3 || Py.is_empty p then Some words
  else
    let target := Py.strip h3 in
    let english := Py.strip p in
    if nonempty target && nonempty english
    then Some (<[target := english]> words)
    else Some words.

Definition _scrape_visible_words (page : node) : option (gmap string string) :=
  foldl (λ acc container, words ← acc; scrape_item words container)
        (Some ∅) (item_locator page).

(** The [while True] loop of [scrape_duolingo_words]. *)
Fixpoint collect (expected_total : Z) (collected : gmap string string)
    (last_count stagnation_rounds : Z) (rounds : list round)
  : run (gmap string string) :=
  match rounds with
  | [] =>
      {| events := []; exit := Collecting; final := collected;
         stagnation := stagnation_rounds |}
  | r :: rounds' =>
      match _scrape_visible_words (page_of r) with
      | None =>
          {| events := []; exit := Raised; final := collected;
             stagnation := stagnation_rounds |}
      | Some current =>
          let before := Z.of_nat (size collected) in
          let collected := current ∪ collected in
          let n := Z.of_nat (size collected) in
          if expected_total <=? n then
            {| events := [EvExtract before n]; exit := Done;
               final := collected; stagnation := stagnation_rounds |}
          else
            let stagnation_rounds :=
              if n =? last_count then stagnation_rounds + 1 else 0 in
            let last_count := n in
            if 3 <=? stagnation_rounds then
              {| events := [EvExtract before n]; exit := Stalled;
                 final := collected; stagnation := stagnation_rounds |}
            else
              let clicked := driver_acted r in
              let evs := [EvExtract before n; EvReveal clicked] in
              if clicked then
                after_events evs
                  (collect expected_total collected last_count
                           stagnation_rounds rounds')
              else
                {| events := evs; exit := NoMoreControl;
                   final := collected; stagnation := stagnation_rounds |}
      end
  end.

(** [scrape_duolingo_words], from the page found after login; [None] is
    the [RuntimeError] of [_get_expected_word_count]. *)
Definition scrape_duolingo_words (page0 : node) (rounds : list round)
  : option (run (gmap string string)) :=
  expected_total ← _get_expected_word_count page0;
  Some (collect expected_total ∅ (-1) 0 rounds).

Definition header : list string := ["target_language_term"; "english_term"].

Definition row_of (te : string * string) : list string := [te.1; te.2].

(** The rows given to [writer.writerow] by [save_words_to_file]. *)
Definition save_words_to_file (words : gmap string string) : list (list string) :=
  header :: (row_of <$> Py.sorted (map_to_list words)).


(** *** The relational store

    The rows of the tables [languages] and [terms] as the code sets them
    (the other columns of [Term] are left to the table's defaults). *)

Record language : Type := {
  lang_id : Z;
  lang_code : string;
  lang_name : string
}.

Record term : Type := {
  language_id : Z;
  english_term : string;
  target_language_term : string;
  transliteration : option string;
  example_sentence : option string;
  example_sentence_explained : option string;
  notes : string;
  learned : bool;
  correct_counter : Z
}.

Record store : Type := { languages : list language; terms : list term }.

(** A session made with [autocommit=False, autoflush=False]: objects given
    to [add] wait in the session until [commit] writes them in one
    transaction; a query reads the committed rows only; [close] drops what
    is waiting.  [calls] counts the calls made on the session, [commits]
    the transactions committed. *)
Record session : Type := {
  committed : store;
  new_languages : list (string * string);
  new_terms : list term;
  calls : nat;
  commits : nat;
  closed : bool
}.

(** A computation on the session that may raise ([None]). *)
Definition M (A : Type) : Type := session → session * option A.

Global Instance M_ret : MRet M := λ A a s, (s, Some a).
Global Instance M_bind : MBind M := λ A B f m s,
  match m s with
  | (s', Some a) => f a s'
  | (s', None) => (s', None)
  end.

Definition raise {A} : M A := λ s, (s, None).

(** [try: body finally: fin] *)
Definition finally {A} (body : M A) (fin : session → session) : M A :=
  λ s, let (s', r) := body s in (fin s', r).

Section WithFaults.

(** [fails n]: the call number [n] on the session raises. *)
Variable fails : nat → bool.

Definition call {A} (f : session → session * A) : M A := λ s,
  let s' := {| committed := committed s; new_languages := new_languages s;
               new_terms := new_terms s; calls := S (calls s);
               commits := commits s; closed := closed s |} in
  if fails (calls s) then (s', None)
  else let (s'', a) := f s' in (s'', Some a).

Definition next_id (ls : list language) : Z :=
  1 + foldr Z.max 0 (lang_id <$> ls).

Fixpoint insert_languages (ls : list language) (new : list (string * string))
  : list language :=
  match new with
  | [] => ls
  | (c, n) :: new' =>
      insert_languages
        (ls ++ [{| lang_id := next_id ls; lang_code := c; lang_name := n |}])
        new'
  end.

(** [session.query(Language).filter(Language.code == c).first()] *)
Definition query_language (c : string) : M (option language) :=
  call (λ s, (s, head (filter (λ l, lang_code l = c)
                              (languages (committed s))))).

(** [session.query(Term).filter(...).first()] *)
Definition query_term (lid : Z) (english target : string) : M (option term) :=
  call (λ s, (s, head (filter (λ t, language_id t = lid
                                    ∧ english_term t = english
                                    ∧ target_language_term t = target)
                              (terms (committed s))))).

Definition add_language (c n : string) : M () :=
  call (λ s, ({| committed := committed s;
                 new_languages := new_languages s ++ [(c, n)];
                 new_terms := new_terms s; calls := calls s;
                 commits := commits s; closed := closed s |}, ())).

Definition add_term (t : term) : M () :=
  call (λ s, ({| committed := committed s;
                 new_languages := new_languages s;
                 new_terms := new_terms s ++ [t]; calls := calls s;
                 commits := commits s; closed := closed s |}, ())).

Definition commit : M () :=
  call (λ s,
    ({| committed :=
          {| languages :=
               insert_languages (languages (committed s)) (new_languages s);
             terms := terms (committed s) ++ new_terms s |};
        new_languages := []; new_terms := []; calls := calls s;
        commits := S (commits s); closed := closed s |}, ())).

(** [session.refresh(lang)]: the row of the language just committed. *)
Definition refresh (c : string) : M language := λ s,
  match call (λ s, (s, last (filter (λ l, lang_code l = c)
                                    (languages (committed s))))) s with
  | (s', Some (Some l)) => (s', Some l)
  | (s', _) => (s', None)
  end.

Definition close (s : session) : session :=
  {| committed := committed s; new_languages := []; new_terms := [];
     calls := calls s; commits := commits s; closed := true |}.

Definition new_term (lid : Z) (english target : string) : term :=
  {| language_id := lid;
     english_term := english;
     target_language_term := target;
     transliteration := None;
     example_sentence := None;
     example_sentence_explained := None;
     notes := "Imported from Duolingo Practice Hub";
     learned := false;
     correct_counter := 0 |}.

(** "Ensure Arabic language exists." *)
Definition ensure_language : M language :=
  lang ← query_language "ar";
  match lang with
  | Some l => mret l
  | None =>
      _ ← add_language "ar" "Arabic";
      _ ← commit;
      refresh "ar"
  end.

(** The loop [for target, english in words.items()]. *)
Fixpoint insert_terms (lid : Z) (items : list (string * string))
    (added skipped : Z) : M (Z * Z) :=
  match items with
  | [] => mret (added, skipped)
  | (target, english) :: items' =>
      existing ← query_term lid english target;
      match existing with
      | Some _ => insert_terms lid items' added (skipped + 1)
      | None =>
          _ ← add_term (new_term lid english target);
          insert_terms lid items' (added + 1) skipped
      end
  end.

Definition open_session (db : store) : session :=
  {| committed := db; new_languages := []; new_terms := [];
     calls := 0; commits := 0; closed := false |}.

(** [save_words_to_database]: [database_url] is the value of the
    environment variable, [db] the rows in the store before the call.
    The items of the dict are taken in the order of [map_to_list] (the
    dict's own order is the order of insertion; no result below depends
    on it).  The result is the session as the function leaves it, and
    the returned pair or [None] when the function raises; without a
    connection string the function raises before it makes a session, and
    the result carries the store untouched. *)
Definition save_words_to_database (database_url : option string)
    (db : store) (words : gmap string string) : session * option (Z * Z) :=
  if bool_decide (database_url = None ∨ database_url = Some EmptyString)
  then (open_session db, None)
  else
    finally
      (lang ← ensure_language;
       counts ← insert_terms (lang_id lang) (map_to_list words) 0 0;
       _ ← commit;
       mret counts)
      close (open_session db).

End WithFaults.

End Scraper.

(** ** Reading a trace *)

Module Trace.

(** The extraction passes of a trace follow one another: each starts from
    the size the pass before ended with (the first from [size0]), and none
    ends with fewer pairs than it started with. *)
Fixpoint chained (size0 : Z) (l : list (Z * Z)) : Prop :=
  match l with
  | [] => True
  | (b, a) :: l' => b = size0 ∧ b ≤ a ∧ chained a l'
  end.

(** The size after the last pass. *)
Definition last_size (size0 : Z) (l : list (Z * Z)) : Z :=
  foldl (λ _ p, p.2) size0 l.

(** A pass that added nothing. *)
Definition stagnant (p : Z * Z) : Prop := p.1 = p.2.

End Trace.

(** ** Reading a text *)

Module Text.

(** Whether every character of [s] satisfies [f]. *)
Fixpoint all_chars (f : ascii → bool) (s : string) : bool :=
  match s with
  | EmptyString => true
  | String a s' => f a && all_chars f s'
  end.

(** How many times the character [c] occurs in [s]. *)
Fixpoint count_char (c : ascii) (s : string) : nat :=
  match s with
  | EmptyString => 0
  | String a s' => (if bool_decide (a = c) then 1 else 0) + count_char c s'
  end.

Definition not_comma (a : ascii) : bool := negb (bool_decide (a = ","%char)).

(** A text that has no white space at either end. *)
Definition trimmed (s : string) : Prop := Py.strip s = s.

End Text.

(** ** The reveal-more drivers *)

Module Reveal.

Inductive target : Type :=
| ByRole
| BySelector (sel : string)
| ByText
| ByIndex (i : nat).

(** What a driver does to the page: the scroll to the bottom, a wait, a
    click that went through, a click that raised. *)
Inductive action : Type :=
| Scroll
| Wait (ms : Z)
| Click (t : target)
| ClickRaised (t : target).

Global Instance target_eq_dec : EqDecision target.
Proof. solve_decision. Defined.

Global Instance action_eq_dec : EqDecision action.
Proof. solve_decision. Defined.

Definition is_click (a : action) : bool :=
  match a with Click _ => true | _ => false end.

(** *** [click_more_if_possible] of the script

    What the page answers about one locator: its [count()] and the
    [is_visible()] of its first element ([None] when the call raises), and
    whether a click on that element goes through. *)
Record locator_state : Type := {
  count : option nat;
  visible : option bool;
  clickable : bool
}.

Record view : Type := {
  by_role : locator_state;
  by_selector : string → locator_state;
  by_text : locator_state
}.

Definition selector_variants : list string :=
  ["button:has-text('More')"; "button:has-text('more')";
   "button:has-text('Show more')"; "button:has-text('Load more')";
   "button:has-text('See more')"].

(** [if await loc.is_visible(): click, wait, return True] inside a [try]
    whose handler goes on to [otherwise]. *)
Definition try_first (t : target) (s : locator_state)
    (otherwise : list action * bool) : list action * bool :=
  match visible s with
  | Some true =>
      if clickable s then ([Click t; Wait 1200], true)
      else (ClickRaised t :: otherwise.1, otherwise.2)
  | _ => otherwise
  end.

(** The same behind [await loc.count() > 0 and ...]. *)
Definition try_counted (t : target) (s : locator_state)
    (otherwise : list action * bool) : list action * bool :=
  match count s with
  | Some n => if bool_decide (0 < n)%nat then try_first t s otherwise else otherwise
  | None => otherwise
  end.

Definition click_more_if_possible (v : view) : list action * bool :=
  let r :=
    try_counted ByRole (by_role v)
      (foldr (λ sel rest, try_first (BySelector sel) (by_selector v sel) rest)
             (try_counted ByText (by_text v) ([], false))
             selector_variants) in
  (Scroll :: Wait 750 :: r.1, r.2).

(** A locator whose first element the driver can click. *)
Definition works (s : locator_state) : Prop :=
  visible s = Some true ∧ clickable s = true.

Definition counted_works (s : locator_state) : Prop :=
  (∃ n, count s = Some n ∧ (0 < n)%nat) ∧ works s.

(** *** [_click_more_if_available] of the scraping module

    Nothing is caught there: a click that raises ends the function
    ([None]). *)
Record button : Type := { text : option string; click_ok : bool }.

Record page_buttons : Type := {
  role_count : nat;
  role_first_enabled : bool;
  role_first_click_ok : bool;
  buttons : list button
}.

(** [txt and "more" in txt.lower()] *)
Definition says_more (b : button) : bool :=
  match text b with
  | Some txt => negb (Py.is_empty txt) && Py.contains "more" (Py.lower txt)
  | None => false
  end.

(** The loop [for i in range(btn_count)], from index [i]. *)
Fixpoint click_by_text (i : nat) (bs : list button) : list action * option bool :=
  match bs with
  | [] => ([], Some false)
  | b :: bs' =>
      if says_more b then
        if click_ok b then ([Click (ByIndex i); Wait 2000], Some true)
        else ([ClickRaised (ByIndex i)], None)
      else click_by_text (S i) bs'
  end.

Definition _click_more_if_available (v : page_buttons)
  : list action * option bool :=
  let r :=
    if bool_decide (0 < role_count v)%nat && role_first_enabled v then
      if role_first_click_ok v then ([Click ByRole; Wait 2000], Some true)
      else ([ClickRaised ByRole], None)
    else click_by_text 0 (buttons v) in
  (Scroll :: Wait 1000 :: r.1, r.2).

End Reveal.

(** ** The lines of the script's output file *)

Module Json.

Definition quote : ascii := "034"%char.
Definition backslash : ascii := "092"%char.
Definition newline : ascii := "010"%char.

(** A hexadecimal digit in lower case, as the format [04x] writes it. *)
Definition hex_digit (n : N) : ascii :=
  ascii_of_N (if (n <? 10)%N then 48 + n else 87 + n).

(** The replacement of one character by [json.dumps] with
    [ensure_ascii=False]: the quote and the backslash get a backslash, the
    control characters below 32 their short escape or a [u] escape of four
    hexadecimal digits, every other character stays. *)
Definition escape_char (a : ascii) : string :=
  let n := Py.ord a in
  if bool_decide (a = quote) then String backslash (String quote EmptyString)
  else if bool_decide (a = backslash)
  then String backslash (String backslash EmptyString)
  else if (n =? 8)%N then String backslash "b"
  else if (n =? 9)%N then String backslash "t"
  else if (n =? 10)%N then String backslash "n"
  else if (n =? 12)%N then String backslash "f"
  else if (n =? 13)%N then String backslash "r"
  else if (n <? 32)%N
  then String backslash
         ("u00" +:+ String (hex_digit (n / 16))
                      (String (hex_digit (n mod 16)) EmptyString))
  else String a EmptyString.

Fixpoint escape (s : string) : string :=
  match s with
  | EmptyString => EmptyString
  | String a s' => escape_char a +:+ escape s'
  end.

(** A string between quotes. *)
Definition encode_string (s : string) : string :=
  String quote (escape s +:+ String quote EmptyString).

(** [json.dumps] of the object with the keys [word] and [translation], in
    that order, with the default separators. *)
Definition dumps (j : Script.json_line) : string :=
  "{" +:+ encode_string "word" +:+ ": " +:+ encode_string (Script.word j)
  +:+ ", " +:+ encode_string "translation" +:+ ": "
  +:+ encode_string (Script.translation j) +:+ "}".

(** The text written to [OUT_PATH]: every line and a line feed. *)
Fixpoint file_text (lines : list Script.json_line) : string :=
  match lines with
  | [] => EmptyString
  | j :: lines' => dumps j +:+ String newline (file_text lines')
  end.

Definition write_file (collected : gset (string * string)) : string :=
  file_text (Script.write_output collected).

(** *** Reading the lines back

    A reader for the lines above, used to show that they lose nothing. *)
Definition hex_value (a : ascii) : option N :=
  let n := Py.ord a in
  if ((48 <=? n) && (n <=? 57))%N then Some (n - 48)%N
  else if ((97 <=? n) && (n <=? 102))%N then Some (n - 87)%N
  else None.

Definition unescape_short (e : ascii) : option ascii :=
  if bool_decide (e = quote) then Some quote
  else if bool_decide (e = backslash) then Some backslash
  else if bool_decide (e = "b"%char) then Some "008"%char
  else if bool_decide (e = "t"%char) then Some "009"%char
  else if bool_decide (e = "n"%char) then Some "010"%char
  else if bool_decide (e = "f"%char) then Some "012"%char
  else if bool_decide (e = "r"%char) then Some "013"%char
  else None.

Definition prepend (a : ascii) (r : option (string * string))
  : option (string * string) :=
  match r with
  | Some (s, rest) => Some (String a s, rest)
  | None => None
  end.

(** The string that ends at the first quote without a backslash before it,
    and what follows that quote. *)
Fixpoint read_string (s : string) : option (string * string) :=
  match s with
  | EmptyString => None
  | String c s' =>
      if bool_decide (c = quote) then Some (EmptyString, s')
      else if bool_decide (c = backslash) then
        match s' with
        | EmptyString => None
        | String e s'' =>
            if bool_decide (e = "u"%char) then
              match s'' with
              | String h1 (String h2 (String h3 (String h4 rest))) =>
                  match hex_value h1, hex_value h2, hex_value h3, hex_value h4 with
                  | Some 0%N, Some 0%N, Some x, Some y =>
                      prepend (ascii_of_N (16 * x + y)) (read_string rest)
                  | _, _, _, _ => None
                  end
              | _ => None
              end
            else
              match unescape_short e with
              | Some a => prepend a (read_string s'')
              | None => None
              end
        end
      else prepend c (read_string s')
  end.

(** [s] without the prefix [p]. *)
Fixpoint after_prefix (p s : string) : option string :=
  match p, s with
  | EmptyString, _ => Some s
  | String a p', String b s' =>
      if bool_decide (a = b) then after_prefix p' s' else None
  | String _ _, EmptyString => None
  end.

Definition loads (line : string) : option Script.json_line :=
  s1 ← after_prefix ("{" +:+ encode_string "word" +:+ ": " +:+ String quote EmptyString) line;
  '(w, s2) ← read_string s1;
  s3 ← after_prefix (", " +:+ encode_string "translation" +:+ ": "
                     +:+ String quote EmptyString) s2;
  '(t, s4) ← read_string s3;
  if bool_decide (s4 = "}") then Some {| Script.word := w; Script.translation := t |}
  else None.

(** The text up to the first line feed, and the text after it. *)
Fixpoint read_line (s : string) : option (string * string) :=
  match s with
  | EmptyString => None
  | String c s' =>
      if bool_decide (c = newline) then Some (EmptyString, s')
      else prepend c (read_line s')
  end.

End Json.

(** ** What the store should hold *)

Module StoreSpec.

Import Scraper.

(** No call on the session raises. *)
Definition never_fails : nat → bool := λ _, false.

(** The term [t] is the record of the pair [te] (target term, English term)
    for the language [lid]: the test of the query in the loop. *)
Definition records (lid : Z) (te : string * string) (t : term) : Prop :=
  language_id t = lid ∧ english_term t = te.2 ∧ target_language_term t = te.1.

(** The pairs that have no record among [ts]. *)
Definition missing (lid : Z) (ts : list term) (items : list (string * string))
  : list (string * string) :=
  filter (λ te, ¬ Exists (records lid te) ts) items.

Definition arabic_rows (ls : list language) : list language :=
  filter (λ l, lang_code l = "ar") ls.

(** The languages after the Arabic row has been ensured. *)
Definition with_arabic (ls : list language) : list language :=
  match arabic_rows ls with
  | [] => ls ++ [{| lang_id := next_id ls; lang_code := "ar";
                    lang_name := "Arabic" |}]
  | _ :: _ => ls
  end.

(** The id of the Arabic row that the function works with. *)
Definition arabic_id (ls : list language) : Z :=
  match arabic_rows ls with
  | [] => next_id ls
  | l :: _ => lang_id l
  end.

Definition term_of (lid : Z) (te : string * string) : term :=
  new_term lid te.2 te.1.

(** *** Reading the rows of the flat file back *)

Definition pair_of_row (row : list string) : option (string * string) :=
  match row with
  | [t; e] => Some (t, e)
  | _ => None
  end.

Definition read_rows (rows : list (list string)) : option (gmap string string) :=
  match rows with
  | [] => None
  | h :: data =>
      if bool_decide (h = header) then list_to_map <$> mapM pair_of_row data
      else None
  end.

End StoreSpec.

(** ** The whole run of the scraping module *)

Module Pipeline.

Import Engine.

(** What [main_async] leaves behind: the rows of the flat file if it was
    written, the rows of the store, and the counts printed at the end if the
    run got there. *)
Record effects : Type := {
  file : option (list (list string));
  store_after : Scraper.store;
  printed : option (Z * Z)
}.

(** [Pending]: the rounds given were all executed and the loop is still
    running. *)
Inductive result : Type :=
| Pending
| Finished (e : effects).

(** [main_async]: collect, write the file, write the store.  An exception
    in the collection ends the run before anything is written; one in the
    store leaves the file written. *)
Definition main_async (fails : nat → bool) (database_url : option string)
    (db : Scraper.store) (page0 : Dom.node) (rounds : list round) : result :=
  match Scraper.scrape_duolingo_words page0 rounds with
  | None => Finished {| file := None; store_after := db; printed := None |}
  | Some r =>
      match exit r with
      | Collecting => Pending
      | Raised => Finished {| file := None; store_after := db; printed := None |}
      | _ =>
          let words := final r in
          let out := Scraper.save_words_to_database fails database_url db words in
          Finished {| file := Some (Scraper.save_words_to_file words);
                      store_after := Scraper.committed out.1;
                      printed := out.2 |}
      end
  end.

End Pipeline.

(** ** What one container gives *)

Module Container.

Import Engine.

(** The entry that a container of the scraping module's XPath gives, if it
    gives one (its [h3] and [p] are there and have text left after
    trimming). *)
Definition entry (c : Dom.node) : option (string * string) :=
  h3 ← first_text "h3" c;
  p ← first_text "p" c;
  if Py.is_empty h3 || Py.is_empty p then None
  else if nonempty (Py.strip h3) && nonempty (Py.strip p)
       then Some (Py.strip h3, Py.strip p) else None.

End Container.

(** ** Documents used in the examples *)

Module Sample.

Import Dom Engine.

Definition el (t : string) (kids : list node) : node := Elem t [] kids.
Definition div (kids : list node) : node := el "div" kids.
Definition h2 (t : string) : node := el "h2" [Text t].

(** A word card: [<div><h3>w</h3><p>t</p></div>]. *)
Definition card (w t : string) : node := div [el "h3" [Text w]; el "p" [Text t]].

(** A list item holding a card two [div]s down, with a class name. *)
Definition item (cls w t : string) : node :=
  Elem "li" [("class", cls)] [div [card w t]].

(** A page whose list sits directly in a [section] of the body. *)
Definition list_page (heading : list node) (items : list node) : node :=
  el "html" [el "body" (heading ++ [el "section" [el "ul" items]])].

(** A page whose list sits where the XPath of the scraping module looks:
    below the element with id [root], second [div], any [div], third [div],
    any [div], second [div], any [div], second [section]. *)
Definition root_page (heading : list node) (items : list node) : node :=
  el "html"
    [el "body"
       [Elem "div" [("id", "root")]
          [div heading;
           div [div [div []; div [];
                     div [div [div [];
                               div [div [el "section" [];
                                         el "section" [el "ul" items]]]]]]]]]].

Definition shows (p : node) (acted : bool) : round :=
  {| page_of := p; driver_acted := acted |}.

End Sample.

(** * Properties *)

Import Dom Engine.

(** ** Reading the expected total *)

Lemma has_digit_lstrip s : Py.has_digit s = false → Py.has_digit (Py.lstrip s) = false.
Proof.
  induction s as [|a s IH]; simpl; [done|].
  intros [Ha Hs]%orb_false_iff.
  destruct (Py.isspace a); simpl; [auto|]. by rewrite Ha, Hs.
Qed.

Lemma has_digit_rstrip s : Py.has_digit s = false → Py.has_digit (Py.rstrip s) = false.
Proof.
  induction s as [|a s IH]; simpl; [done|].
  intros [Ha Hs]%orb_false_iff.
  destruct (Py.isspace a && Py.is_empty (Py.rstrip s)); simpl; [done|].
  by rewrite Ha, IH.
Qed.

Lemma has_digit_strip s : Py.has_digit s = false → Py.has_digit (Py.strip s) = false.
Proof. intros H. by apply has_digit_rstrip, has_digit_lstrip. Qed.

Lemma search_digits_no_digit s : Py.has_digit s = false → Py.search_digits s = None.
Proof.
  induction s as [|a s IH]; simpl; [done|].
  intros [-> Hs]%orb_false_iff. auto.
Qed.

Lemma search_digits_commas_no_digit s :
  Py.has_digit s = false → Py.search_digits_commas s = None.
Proof.
  induction s as [|a s IH]; simpl; [done|].
  intros [-> Hs]%orb_false_iff. auto.
Qed.

Lemma parse_expected_count_no_digit s :
  Py.has_digit s = false → Script.parse_expected_count s = -1.
Proof.
  intros H. unfold Script.parse_expected_count.
  by rewrite search_digits_commas_no_digit.
Qed.

(** ** One round of each loop *)

(** The three ways a round of the script's loop goes: the count check ends
    the run, the stagnation check ends it, or the loop goes on. *)
Lemma script_round expected acc st r rounds :
  let acc' := Script.extract_visible_words (page_of r) ∪ acc in
  let before := Z.of_nat (size acc) in
  let after := Z.of_nat (size acc') in
  let st' := if after =? before then st + 1 else 0 in
  let evs := EvExtract before after :: EvReveal (driver_acted r)
             :: (if driver_acted r then [] else [EvSettle]) in
  (expected ≠ -1 ∧ expected ≤ after
   ∧ Script.collect expected acc st (r :: rounds)
     = {| events := [EvExtract before after]; exit := Done; final := acc';
          stagnation := st |})
  ∨ (¬ (expected ≠ -1 ∧ expected ≤ after) ∧ 3 ≤ st'
     ∧ Script.collect expected acc st (r :: rounds)
       = {| events := evs; exit := Stalled; final := acc'; stagnation := st' |})
  ∨ (¬ (expected ≠ -1 ∧ expected ≤ after) ∧ st' < 3
     ∧ Script.collect expected acc st (r :: rounds)
       = after_events evs (Script.collect expected acc' st' rounds)).
Proof.
  intros acc' before after st' evs.
  change (Script.collect expected acc st (r :: rounds)) with
    (if bool_decide (expected ≠ -1) && (expected <=? after) then
       {| events := [EvExtract before after]; exit := Done; final := acc';
          stagnation := st |}
     else if 3 <=? st' then
       {| events := evs; exit := Stalled; final := acc'; stagnation := st' |}
     else after_events evs (Script.collect expected acc' st' rounds)).
  destruct (bool_decide (expected ≠ -1) && (expected <=? after)) eqn:Hdone.
  - left. apply andb_true_iff in Hdone as [H1%bool_decide_eq_true H2%Z.leb_le].
    done.
  - right.
    assert (¬ (expected ≠ -1 ∧ expected ≤ after)) as Hnot.
    { intros [H1 H2]. apply andb_false_iff in Hdone as [H|H].
      - by apply bool_decide_eq_false in H.
      - apply Z.leb_gt in H. lia. }
    destruct (3 <=? st') eqn:Hst.
    + left. apply Z.leb_le in Hst. done.
    + right. apply Z.leb_gt in Hst. done.
Qed.

(** The five ways a round of the scraping module's loop goes. *)
Lemma scraper_round expected_total acc last st r rounds :
  (Scraper._scrape_visible_words (page_of r) = None
   ∧ Scraper.collect expected_total acc last st (r :: rounds)
     = {| events := []; exit := Raised; final := acc; stagnation := st |})
  ∨ ∃ current,
      Scraper._scrape_visible_words (page_of r) = Some current
      ∧ let acc' := current ∪ acc in
        let before := Z.of_nat (size acc) in
        let n := Z.of_nat (size acc') in
        let st' := if n =? last then st + 1 else 0 in
        (expected_total ≤ n
         ∧ Scraper.collect expected_total acc last st (r :: rounds)
           = {| events := [EvExtract before n]; exit := Done; final := acc';
                stagnation := st |})
        ∨ (n < expected_total ∧ 3 ≤ st'
           ∧ Scraper.collect expected_total acc last st (r :: rounds)
             = {| events := [EvExtract before n]; exit := Stalled;
                  final := acc'; stagnation := st' |})
        ∨ (n < expected_total ∧ st' < 3 ∧ driver_acted r = false
           ∧ Scraper.collect expected_total acc last st (r :: rounds)
             = {| events := [EvExtract before n; EvReveal false];
                  exit := NoMoreControl; final := acc'; stagnation := st' |})
        ∨ (n < expected_total ∧ st' < 3 ∧ driver_acted r = true
           ∧ Scraper.collect expected_total acc last st (r :: rounds)
             = after_events [EvExtract before n; EvReveal true]
                 (Scraper.collect expected_total acc' n st' rounds)).
Proof.
  simpl. destruct (Scraper._scrape_visible_words (page_of r)) as [current|];
    [right; exists current; split; [done|] | by left].
  destruct (expected_total <=? _) eqn:Hdone.
  { left. by apply Z.leb_le in Hdone. }
  right. apply Z.leb_gt in Hdone.
  destruct (3 <=? _) eqn:Hst.
  { left. by apply Z.leb_le in Hst. }
  right. apply Z.leb_gt in Hst.
  destruct (driver_acted r); [right | left]; done.
Qed.

(** With the expected total unknown the count check of the script's loop
    never fires: the loop stalls or is still collecting. *)
Lemma script_collect_unknown acc st rounds :
  exit (Script.collect (-1) acc st rounds) = Stalled
  ∨ exit (Script.collect (-1) acc st rounds) = Collecting.
Proof.
  revert acc st. induction rounds as [|r rounds IH]; intros acc st; [by right|].
  destruct (script_round (-1) acc st r rounds)
    as [(H & _) | [(_ & _ & ->) | (_ & _ & ->)]]; [done | by left | apply IH].
Qed.

Lemma expected_from_headers_none hs :
  Forall (λ h, Py.contains "word" (Py.lower (text_content h)) = false
               ∨ Py.has_digit (text_content h) = false) hs →
  Scraper.expected_from_headers hs = None.
Proof.
  induction 1 as [|h hs Hh _ IH]; simpl; [done|].
  destruct (Py.is_empty (text_content h)); [done|].
  destruct Hh as [-> | Hd]; [done|].
  rewrite (search_digits_no_digit _ Hd). by destruct (Py.contains _ _).
Qed.

(** C5.  For the heading text [1,234 words] the script reads the expected
    total 1234: the digits and commas after the first digit are taken and the
    commas dropped.  The scraping module takes the first run of digits only
    and reads 1 from the same heading. *)
Theorem expected_count_thousands_separator :
  Script.parse_expected_count "1,234 words" = 1234
  ∧ Script.get_expected_count (Sample.list_page [Sample.h2 "1,234 words"] []) = 1234
  ∧ Scraper._get_expected_word_count
      (Sample.root_page [Sample.h2 "1,234 words"] []) = Some 1.
Proof. by vm_compute. Qed.

(** The heading text [Words] has no digit and reads as unknown. *)
Example parse_expected_count_words : Script.parse_expected_count "Words" = -1.
Proof. reflexivity. Qed.

(** C4, as the code has it.  In the script, when no [h2] has the text
    [words], or the first [h2] that has it holds no digit, the reader returns
    [-1] and the loop that follows never ends on the count check: it stalls
    or is still collecting.  In the scraping module, when no [h2] with the
    text [word] holds a digit, the reader raises and the run ends before its
    loop. *)
Theorem expected_count_unreadable (page : node) (rounds : list round) :
  (let words_h2 :=
     filter (λ e, Py.contains "words" (Py.lower (text_content e)) = true)
            (locator "h2" page) in
   words_h2 = []
   ∨ (∃ h, head words_h2 = Some h ∧ Py.has_digit (text_content h) = false) →
   Script.get_expected_count page = -1
   ∧ ∀ acc st,
       exit (Script.collect (Script.get_expected_count page) acc st rounds) = Stalled
       ∨ exit (Script.collect (Script.get_expected_count page) acc st rounds) = Collecting)
  ∧ (Forall (λ h, Py.contains "word" (Py.lower (text_content h)) = false
                  ∨ Py.has_digit (text_content h) = false) (locator "h2" page) →
     Scraper._get_expected_word_count page = None
     ∧ Scraper.scrape_duolingo_words page rounds = None).
Proof.
  split.
  - intros words_h2 H.
    assert (Script.get_expected_count page = -1) as Hcount.
    { unfold Script.get_expected_count. fold words_h2.
      destruct H as [-> | (h & -> & Hd)]; [done|].
      by apply parse_expected_count_no_digit, has_digit_strip. }
    split; [done|]. intros acc st. rewrite Hcount.
    apply script_collect_unknown.
  - intros H. unfold Scraper.scrape_duolingo_words, Scraper._get_expected_word_count.
    by rewrite (expected_from_headers_none _ H).
Qed.

(** The reader of the scraping module raises on a page without any [h2],
    and the run ends there. *)
Lemma scraper_raises_without_heading :
  locator "h2" (Sample.root_page [] [Sample.item "c" "a" "one"]) = []
  ∧ Scraper._get_expected_word_count
      (Sample.root_page [] [Sample.item "c" "a" "one"]) = None
  ∧ ¬ ∃ r, Scraper.scrape_duolingo_words
             (Sample.root_page [] [Sample.item "c" "a" "one"])
             [Sample.shows (Sample.root_page [] [Sample.item "c" "a" "one"]) true]
           = Some r.
Proof. split_and!; [done..|]. intros [r Hr]. vm_compute in Hr. done. Qed.

Lemma expected_count_unreadable_witness :
  Script.get_expected_count (Sample.list_page [Sample.h2 "Words"] []) = -1
  ∧ Scraper._get_expected_word_count
      (Sample.list_page [Sample.h2 "Words"] []) = None.
Proof.
  destruct (expected_count_unreadable
              (Sample.list_page [Sample.h2 "Words"] []) []) as [HS HR].
  split.
  - apply HS. right. exists (Sample.h2 "Words"). split; reflexivity.
  - apply HR. constructor; [by right | constructor].
Defined.
(** ** Traces *)

Lemma cons_eq_app {A} (x : A) l pre y post :
  x :: l = pre ++ y :: post →
  (pre = [] ∧ x = y ∧ l = post) ∨ ∃ pre', pre = x :: pre' ∧ l = pre' ++ y :: post.
Proof. destruct pre as [|z pre]; simpl; intros H; simplify_eq; eauto. Qed.

Lemma nil_eq_app {A} (pre : list A) y post : [] = pre ++ y :: post → False.
Proof. by destruct pre. Qed.

(** Peel the first event of a trace off an equation [x :: l = pre ++ y :: post]. *)
Ltac peel H :=
  let pre' := fresh "pre" in
  first
    [ apply nil_eq_app in H; destruct H
    | apply cons_eq_app in H as [(-> & ? & ?) | (pre' & -> & H)]; simplify_eq ].

Lemma script_count_check_ends rounds expected acc st pre b a post :
  expected ≠ -1 →
  events (Script.collect expected acc st rounds) = pre ++ EvExtract b a :: post →
  expected ≤ a →
  post = [] ∧ exit (Script.collect expected acc st rounds) = Done
  ∧ Z.of_nat (size (final (Script.collect expected acc st rounds))) = a.
Proof.
  intros Hknown. revert acc st pre.
  induction rounds as [|r rounds IH]; intros acc st pre Hev Ha.
  { simpl in Hev. by peel Hev. }
  destruct (script_round expected acc st r rounds)
    as [(_ & _ & Heq) | [(Hn & _ & Heq) | (Hn & _ & Heq)]];
    rewrite Heq in *; clear Heq; cbn [events exit final after_events] in *.
  - peel Hev; [done | by peel Hev].
  - peel Hev; [tauto|]. peel Hev. destruct (driver_acted r); repeat peel Hev.
  - rewrite <- app_comm_cons in Hev. peel Hev; [tauto|].
    rewrite <- app_comm_cons in Hev. peel Hev.
    destruct (driver_acted r); simpl in Hev; [|peel Hev]; eauto.
Qed.

Lemma scraper_count_check_ends rounds expected_total acc last st pre b a post :
  events (Scraper.collect expected_total acc last st rounds)
    = pre ++ EvExtract b a :: post →
  expected_total ≤ a →
  post = [] ∧ exit (Scraper.collect expected_total acc last st rounds) = Done
  ∧ Z.of_nat (size (final (Scraper.collect expected_total acc last st rounds))) = a.
Proof.
  revert acc last st pre.
  induction rounds as [|r rounds IH]; intros acc last st pre Hev Ha.
  { simpl in Hev. by peel Hev. }
  destruct (scraper_round expected_total acc last st r rounds)
    as [(_ & Heq) | (current & _ & [(_ & Heq) | [(Hn & _ & Heq)
         | [(Hn & _ & _ & Heq) | (Hn & _ & _ & Heq)]]])];
    rewrite Heq in *; clear Heq; cbn [events exit final after_events] in *.
  - by peel Hev.
  - peel Hev; [done | by peel Hev].
  - peel Hev; [lia | by peel Hev].
  - peel Hev; [lia|]. by repeat peel Hev.
  - rewrite <- app_comm_cons in Hev. peel Hev; [lia|].
    rewrite <- app_comm_cons in Hev. peel Hev. simpl in Hev. eauto.
Qed.

(** C6.  In both loops, when the expected total is known and an extraction
    pass brings the accumulator to at least that size, nothing happens after
    that pass (no call of the reveal-more driver, no further extraction) and
    the loop has ended on the count check with the accumulator of that
    size. *)
Theorem count_reached_ends_run (expected : Z) (rounds : list round)
    (pre post : list event) (b a : Z) :
  expected ≤ a →
  (expected ≠ -1 →
   ∀ acc st,
     events (Script.collect expected acc st rounds) = pre ++ EvExtract b a :: post →
     post = [] ∧ exit (Script.collect expected acc st rounds) = Done
     ∧ Z.of_nat (size (final (Script.collect expected acc st rounds))) = a)
  ∧ (∀ acc last st,
       events (Scraper.collect expected acc last st rounds)
         = pre ++ EvExtract b a :: post →
       post = [] ∧ exit (Scraper.collect expected acc last st rounds) = Done
       ∧ Z.of_nat (size (final (Scraper.collect expected acc last st rounds))) = a).
Proof.
  intros Ha. split.
  - intros Hknown acc st Hev. by eapply script_count_check_ends.
  - intros acc last st Hev. by eapply scraper_count_check_ends.
Qed.

Lemma count_reached_ends_run_witness :
  exit (Script.collect 2 ∅ 0
          [Sample.shows (Sample.list_page [] [Sample.item "c" "a" "one"]) true;
           Sample.shows (Sample.list_page []
                           [Sample.item "c" "a" "one"; Sample.item "d" "b" "two"]) true;
           Sample.shows (Sample.list_page [] []) true]) = Done
  ∧ exit (Scraper.collect 2 ∅ (-1) 0
          [Sample.shows (Sample.root_page [] [Sample.item "c" "a" "one"]) true;
           Sample.shows (Sample.root_page []
                           [Sample.item "c" "a" "one"; Sample.item "d" "b" "two"]) true;
           Sample.shows (Sample.root_page [] []) true]) = Done.
Proof.
  split.
  - refine (proj1 (proj2 (proj1
      (count_reached_ends_run 2 _ [EvExtract 0 1; EvReveal true] [] 1 2 _) _ ∅ 0 _)));
      [lia | done | by vm_compute].
  - refine (proj1 (proj2 (proj2
      (count_reached_ends_run 2 _ [EvExtract 0 1; EvReveal true] [] 1 2 _) ∅ (-1) 0 _)));
      [lia | by vm_compute].
Defined.

(** ** Stagnation *)

Lemma extracts_script_block b a acted rest :
  extracts ((EvExtract b a :: EvReveal acted
             :: (if acted then [] else [EvSettle])) ++ rest)
  = (b, a) :: extracts rest.
Proof. by destruct acted. Qed.

(** The script's loop after two stagnant rounds: a third one stalls it. *)
Lemma script_third_stagnant rounds expected acc st b post :
  2 ≤ st →
  ¬ (expected ≠ -1 ∧ expected ≤ Z.of_nat (size acc)) →
  extracts (events (Script.collect expected acc st rounds)) = (b, b) :: post →
  post = [] ∧ exit (Script.collect expected acc st rounds) = Stalled.
Proof.
  intros Hst Hnd Hex. destruct rounds as [|r rounds]; [done|].
  destruct (script_round expected acc st r rounds)
    as [(H1 & H2 & Heq) | [(_ & _ & Heq) | (_ & Hlt & Heq)]];
    rewrite Heq in *; clear Heq; cbn [events exit after_events] in *.
  - simpl in Hex. injection Hex as Hb Ha _. destruct Hnd. split; [done|]. lia.
  - rewrite <- (app_nil_r (_ :: _)), extracts_script_block in Hex.
    by injection Hex as _ _ <-.
  - rewrite extracts_script_block in Hex. injection Hex as Hb Ha _.
    rewrite Ha, <- Hb, Z.eqb_refl in Hlt. lia.
Qed.

Lemma script_second_stagnant rounds expected acc st b2 b3 post :
  1 ≤ st →
  ¬ (expected ≠ -1 ∧ expected ≤ Z.of_nat (size acc)) →
  extracts (events (Script.collect expected acc st rounds))
    = (b2, b2) :: (b3, b3) :: post →
  post = [] ∧ exit (Script.collect expected acc st rounds) = Stalled.
Proof.
  intros Hst Hnd Hex. destruct rounds as [|r rounds]; [done|].
  destruct (script_round expected acc st r rounds)
    as [(_ & _ & Heq) | [(_ & _ & Heq) | (_ & _ & Heq)]];
    rewrite Heq in *; clear Heq; cbn [events exit after_events] in *.
  - done.
  - rewrite <- (app_nil_r (_ :: _)), extracts_script_block in Hex. done.
  - rewrite extracts_script_block in Hex.
    injection Hex as Hb Ha Hex.
    assert ((Z.of_nat (size (Script.extract_visible_words (page_of r) ∪ acc))
             =? Z.of_nat (size acc)) = true) as Hsame by lia.
    rewrite Hsame in *.
    eapply script_third_stagnant; [| |exact Hex]; [lia|].
    by rewrite Ha, <- Hb.
Qed.

Lemma script_three_stagnant rounds expected acc st pre b1 b2 b3 post :
  0 ≤ st →
  extracts (events (Script.collect expected acc st rounds))
    = pre ++ (b1, b1) :: (b2, b2) :: (b3, b3) :: post →
  post = [] ∧ exit (Script.collect expected acc st rounds) = Stalled.
Proof.
  revert acc st pre. induction rounds as [|r rounds IH]; intros acc st pre Hst Hex.
  { simpl in Hex. by peel Hex. }
  destruct (script_round expected acc st r rounds)
    as [(_ & _ & Heq) | [(_ & _ & Heq) | (Hnd & _ & Heq)]];
    rewrite Heq in *; clear Heq; cbn [events exit after_events] in *.
  - simpl in Hex. peel Hex. by peel Hex.
  - rewrite <- (app_nil_r (_ :: _)), extracts_script_block in Hex.
    peel Hex. by peel Hex.
  - rewrite extracts_script_block in Hex.
    apply cons_eq_app in Hex as [(-> & Hb & Hex) | (pre' & -> & Hex)].
    + injection Hb as Hb Ha.
      assert ((Z.of_nat (size (Script.extract_visible_words (page_of r) ∪ acc))
               =? Z.of_nat (size acc)) = true) as Hsame by lia.
      rewrite Hsame in *.
      eapply script_second_stagnant; [| |exact Hex]; [lia|done].
    + eapply IH; [|exact Hex]. case_match; lia.
Qed.

(** The scraping module's loop compares the size with [last_count], the
    size at the end of the round before; once a round has ended,
    [last_count] is the size of the accumulator. *)
Lemma scraper_third_stagnant rounds expected_total acc st b post :
  2 ≤ st →
  Z.of_nat (size acc) < expected_total →
  extracts (events (Scraper.collect expected_total acc (Z.of_nat (size acc)) st rounds))
    = (b, b) :: post →
  post = []
  ∧ exit (Scraper.collect expected_total acc (Z.of_nat (size acc)) st rounds) = Stalled.
Proof.
  intros Hst Hnd Hex. destruct rounds as [|r rounds]; [done|].
  destruct (scraper_round expected_total acc (Z.of_nat (size acc)) st r rounds)
    as [(_ & Heq) | (current & _ & [(Hd & Heq) | [(_ & _ & Heq)
         | [(_ & Hlt & _ & Heq) | (_ & Hlt & _ & Heq)]]])];
    rewrite Heq in *; clear Heq; cbn [events exit after_events] in *.
  - done.
  - injection Hex as Hb Ha _. lia.
  - by injection Hex as _ _ <-.
  - injection Hex as Hb Ha _. rewrite Ha, <- Hb, Z.eqb_refl in Hlt. lia.
  - injection Hex as Hb Ha _. rewrite Ha, <- Hb, Z.eqb_refl in Hlt. lia.
Qed.

Lemma scraper_second_stagnant rounds expected_total acc st b2 b3 post :
  1 ≤ st →
  Z.of_nat (size acc) < expected_total →
  extracts (events (Scraper.collect expected_total acc (Z.of_nat (size acc)) st rounds))
    = (b2, b2) :: (b3, b3) :: post →
  post = []
  ∧ exit (Scraper.collect expected_total acc (Z.of_nat (size acc)) st rounds) = Stalled.
Proof.
  intros Hst Hnd Hex. destruct rounds as [|r rounds]; [done|].
  destruct (scraper_round expected_total acc (Z.of_nat (size acc)) st r rounds)
    as [(_ & Heq) | (current & _ & [(_ & Heq) | [(_ & _ & Heq)
         | [(_ & _ & _ & Heq) | (Hn & _ & _ & Heq)]]])];
    rewrite Heq in *; clear Heq; cbn [events exit after_events] in *; try done.
  injection Hex as Hb Ha Hex.
  assert ((Z.of_nat (size (current ∪ acc)) =? Z.of_nat (size acc)) = true)
    as Hsame by lia.
  rewrite Hsame in *.
  eapply scraper_third_stagnant; [| |exact Hex]; lia.
Qed.

Lemma scraper_three_stagnant rounds expected_total acc st pre b1 b2 b3 post :
  0 ≤ st →
  extracts (events (Scraper.collect expected_total acc (Z.of_nat (size acc)) st rounds))
    = pre ++ (b1, b1) :: (b2, b2) :: (b3, b3) :: post →
  post = []
  ∧ exit (Scraper.collect expected_total acc (Z.of_nat (size acc)) st rounds) = Stalled.
Proof.
  revert acc st pre. induction rounds as [|r rounds IH]; intros acc st pre Hst Hex.
  { simpl in Hex. by peel Hex. }
  destruct (scraper_round expected_total acc (Z.of_nat (size acc)) st r rounds)
    as [(_ & Heq) | (current & _ & [(_ & Heq) | [(_ & _ & Heq)
         | [(_ & _ & _ & Heq) | (Hn & _ & _ & Heq)]]])];
    rewrite Heq in *; clear Heq; cbn [events exit after_events] in *;
    try (simpl in Hex; peel Hex; by peel Hex).
  change (extracts _) with
    ((Z.of_nat (size acc), Z.of_nat (size (current ∪ acc)))
     :: extracts (events (Scraper.collect expected_total (current ∪ acc)
                            (Z.of_nat (size (current ∪ acc)))
                            (if Z.of_nat (size (current ∪ acc)) =? Z.of_nat (size acc)
                             then st + 1 else 0) rounds))) in Hex.
  apply cons_eq_app in Hex as [(-> & Hb & Hex) | (pre' & -> & Hex)].
  - injection Hb as Hb Ha.
    assert ((Z.of_nat (size (current ∪ acc)) =? Z.of_nat (size acc)) = true)
      as Hsame by lia.
    rewrite Hsame in *.
    eapply scraper_second_stagnant; [| |exact Hex]; lia.
  - eapply IH; [|exact Hex]. case_match; lia.
Qed.

(** From the start of a run, where [last_count] is [-1]: three stagnant
    rounds that come after some round stall the loop. *)
Lemma scraper_three_stagnant_later rounds expected_total acc last st
    p pre b1 b2 b3 post :
  0 ≤ st →
  extracts (events (Scraper.collect expected_total acc last st rounds))
    = p :: pre ++ (b1, b1) :: (b2, b2) :: (b3, b3) :: post →
  post = []
  ∧ exit (Scraper.collect expected_total acc last st rounds) = Stalled.
Proof.
  intros Hst Hex. destruct rounds as [|r rounds]; [done|].
  destruct (scraper_round expected_total acc last st r rounds)
    as [(_ & Heq) | (current & _ & [(_ & Heq) | [(_ & _ & Heq)
         | [(_ & _ & _ & Heq) | (Hn & Hlt & _ & Heq)]]])];
    rewrite Heq in *; clear Heq; cbn [events exit after_events] in *;
    try done; try (simpl in Hex; injection Hex as _ Hex; by peel Hex).
  simpl in Hex. injection Hex as _ Hex. fold (extracts) in Hex.
  eapply scraper_three_stagnant; [|exact Hex]. case_match; lia.
Qed.

(** At the start of a run of the scraping module [last_count] is [-1], so
    the first round is never counted as stagnant: with an expected total of
    5 and a page that never shows an item, four rounds in a row add nothing
    and all four are executed. *)
Lemma scraper_runs_fourth_stagnant_round :
  (λ r, (extracts (events r), exit r))
    <$> Scraper.scrape_duolingo_words
          (Sample.root_page [Sample.h2 "5 words"] [])
          (replicate 4 (Sample.shows (Sample.root_page [Sample.h2 "5 words"] []) true))
  = Some ([] ++ [(0, 0); (0, 0); (0, 0)] ++ [(0, 0)], Stalled).
Proof. by vm_compute. Qed.

(** C2, as the code has it.  In the script's loop, whatever the expected
    total (known or [-1]), three rounds in a row that add nothing end the
    loop as stalled at the third: no extraction follows.  In the scraping
    module's loop the same holds for three such rounds that come after an
    earlier round of the run. *)
Theorem three_stagnant_rounds_stall (expected : Z) (rounds : list round)
    (pre post : list (Z * Z)) (b1 b2 b3 : Z) :
  (∀ acc st,
     0 ≤ st →
     extracts (events (Script.collect expected acc st rounds))
       = pre ++ [(b1, b1); (b2, b2); (b3, b3)] ++ post →
     post = [] ∧ exit (Script.collect expected acc st rounds) = Stalled)
  ∧ (∀ acc last st p,
       0 ≤ st →
       extracts (events (Scraper.collect expected acc last st rounds))
         = p :: pre ++ [(b1, b1); (b2, b2); (b3, b3)] ++ post →
       post = [] ∧ exit (Scraper.collect expected acc last st rounds) = Stalled).
Proof.
  split.
  - intros acc st Hst Hex.
    eapply script_three_stagnant; [exact Hst | exact Hex].
  - intros acc last st p Hst Hex.
    eapply scraper_three_stagnant_later; [exact Hst | exact Hex].
Qed.

Lemma three_stagnant_rounds_stall_witness :
  exit (Script.collect (-1) ∅ 0
          (replicate 5 (Sample.shows (Sample.list_page [] []) false))) = Stalled
  ∧ exit (Scraper.collect 5 ∅ (-1) 0
            (replicate 5 (Sample.shows
               (Sample.root_page [] [Sample.item "c" "a" "one"]) true))) = Stalled.
Proof.
  split.
  - refine (proj2 (proj1
      (three_stagnant_rounds_stall (-1) _ [] [] 0 0 0) ∅ 0 _ _));
      [lia | by vm_compute].
  - refine (proj2 (proj2
      (three_stagnant_rounds_stall 5 _ [] [] 1 1 1) ∅ (-1) 0 (0, 1) _ _));
      [lia | by vm_compute].
Defined.

(** ** The reveal-more driver and the extra settle *)

Lemma script_no_action_then_settle rounds expected acc st pre post :
  events (Script.collect expected acc st rounds) = pre ++ EvReveal false :: post →
  ∃ post', post = EvSettle :: post'.
Proof.
  revert acc st pre. induction rounds as [|r rounds IH]; intros acc st pre Hev.
  { simpl in Hev. by peel Hev. }
  destruct (script_round expected acc st r rounds)
    as [(_ & _ & Heq) | [(_ & _ & Heq) | (_ & _ & Heq)]];
    rewrite Heq in *; clear Heq; cbn [events after_events] in *.
  - by repeat peel Hev.
  - peel Hev. destruct (driver_acted r); peel Hev; eauto; by repeat peel Hev.
  - rewrite <- !app_comm_cons in Hev. peel Hev.
    destruct (driver_acted r); simpl in Hev; peel Hev; eauto.
    peel Hev. eauto.
Qed.

Lemma script_settle_after_no_action rounds expected acc st pre post :
  events (Script.collect expected acc st rounds) = pre ++ EvSettle :: post →
  ∃ pre', pre = pre' ++ [EvReveal false].
Proof.
  revert acc st pre. induction rounds as [|r rounds IH]; intros acc st pre Hev.
  { simpl in Hev. by peel Hev. }
  destruct (script_round expected acc st r rounds)
    as [(_ & _ & Heq) | [(_ & _ & Heq) | (_ & _ & Heq)]];
    rewrite Heq in *; clear Heq; cbn [events after_events] in *.
  - by repeat peel Hev.
  - peel Hev. peel Hev. destruct (driver_acted r); peel Hev.
    + by eexists [_].
    + by peel Hev.
  - rewrite <- !app_comm_cons in Hev. peel Hev. peel Hev.
    destruct (driver_acted r); simpl in Hev.
    + apply IH in Hev as [pre' ->]. eexists. by rewrite !app_comm_cons.
    + peel Hev; [by eexists [_]|].
      apply IH in Hev as [pre' ->]. eexists. by rewrite !app_comm_cons.
Qed.

(** What the driver answers changes nothing in the script's loop but the
    trace: the exit, the accumulator, the stagnation counter and the sizes of
    the extraction passes are those of the run in which the driver never
    acts. *)

Lemma script_driver_irrelevant rounds expected acc st :
  let r := Script.collect expected acc st rounds in
  let r' := Script.collect expected acc st (silent <$> rounds) in
  exit r = exit r' ∧ final r = final r' ∧ stagnation r = stagnation r'
  ∧ extracts (events r) = extracts (events r').
Proof.
  revert acc st. induction rounds as [|r rounds IH]; intros acc st; [done|].
  rewrite fmap_cons.
  destruct (script_round expected acc st r rounds)
    as [(H1 & H2 & Heq) | [(Hn & Hst & Heq) | (Hn & Hst & Heq)]];
  destruct (script_round expected acc st (silent r) (silent <$> rounds))
    as [(H1' & H2' & Heq') | [(Hn' & Hst' & Heq') | (Hn' & Hst' & Heq')]];
    cbn [page_of silent driver_acted] in *;
    try tauto; try lia; rewrite Heq, Heq'; clear Heq Heq'.
  - done.
  - cbn -[extracts]. by destruct (driver_acted r).
  - cbn [exit final stagnation events after_events].
    rewrite <- (app_nil_r [_; _; EvSettle]), !extracts_script_block.
    specialize (IH (Script.extract_visible_words (page_of r) ∪ acc)
      (if Z.of_nat (size (Script.extract_visible_words (page_of r) ∪ acc))
          =? Z.of_nat (size acc) then st + 1 else 0)).
    destruct IH as (-> & -> & -> & ->). done.
Qed.

Lemma scraper_no_action_ends rounds expected_total acc last st pre post :
  events (Scraper.collect expected_total acc last st rounds)
    = pre ++ EvReveal false :: post →
  post = []
  ∧ exit (Scraper.collect expected_total acc last st rounds) = NoMoreControl.
Proof.
  revert acc last st pre.
  induction rounds as [|r rounds IH]; intros acc last st pre Hev.
  { simpl in Hev. by peel Hev. }
  destruct (scraper_round expected_total acc last st r rounds)
    as [(_ & Heq) | (current & _ & [(_ & Heq) | [(_ & _ & Heq)
         | [(_ & _ & _ & Heq) | (_ & _ & _ & Heq)]]])];
    rewrite Heq in *; clear Heq; cbn [events exit after_events] in *;
    try by repeat peel Hev.
  peel Hev. peel Hev. eauto.
Qed.

Lemma scraper_never_settles rounds expected_total acc last st :
  EvSettle ∉ events (Scraper.collect expected_total acc last st rounds).
Proof.
  revert acc last st. induction rounds as [|r rounds IH]; intros acc last st.
  { simpl. apply not_elem_of_nil. }
  destruct (scraper_round expected_total acc last st r rounds)
    as [(_ & Heq) | (current & _ & [(_ & Heq) | [(_ & _ & Heq)
         | [(_ & _ & _ & Heq) | (_ & _ & _ & Heq)]]])];
    rewrite Heq; clear Heq; cbn [events after_events app];
    rewrite ?not_elem_of_cons; split_and?;
    first [done | apply not_elem_of_nil | apply IH].
Qed.

(** With an expected total of 5 read from the heading and one item on the
    page, a driver that does nothing is followed by the extra settle all the
    same. *)
Lemma script_settles_with_known_total :
  ∃ rep,
    Script.main (Sample.list_page [Sample.h2 "5 words"] [Sample.item "c" "a" "one"])
      [Sample.shows
         (Sample.list_page [Sample.h2 "5 words"] [Sample.item "c" "a" "one"]) false]
    = Some rep
    ∧ Script.expected_count rep = 5
    ∧ events (Script.loop rep) = [EvExtract 0 1; EvReveal false; EvSettle]
    ∧ ¬ (EvSettle ∈ events (Script.loop rep) ↔ Script.expected_count rep = -1).
Proof.
  eexists. split; [vm_compute; reflexivity|]. cbn [Script.expected_count Script.loop events].
  split_and!; [done..|]. intros [H _].
  assert (5 = -1) as Habs by (apply H; rewrite !elem_of_cons; tauto). done.
Qed.

(** C7, as the code has it.  In the script's loop every answer of the driver
    that it did nothing is followed at once by the extra settle, whatever the
    expected total, and the settle occurs nowhere else; the stagnation
    counter, the accumulator and the exit of the loop are those of the run
    in which the driver never acts, so the settle step changes none of them.
    In the scraping module's loop such an answer is the last event of the
    run and there is never a settle. *)
Theorem no_action_settle (expected : Z) (rounds : list round) :
  (∀ acc st,
     let r := Script.collect expected acc st rounds in
     (∀ pre post,
        events r = pre ++ EvReveal false :: post → ∃ post', post = EvSettle :: post')
     ∧ (∀ pre post,
          events r = pre ++ EvSettle :: post → ∃ pre', pre = pre' ++ [EvReveal false])
     ∧ stagnation r = stagnation (Script.collect expected acc st (silent <$> rounds))
     ∧ final r = final (Script.collect expected acc st (silent <$> rounds))
     ∧ exit r = exit (Script.collect expected acc st (silent <$> rounds)))
  ∧ (∀ acc last_count st,
       let r := Scraper.collect expected acc last_count st rounds in
       (EvSettle ∉ events r)
       ∧ ∀ pre post,
           events r = pre ++ EvReveal false :: post →
           post = [] ∧ exit r = NoMoreControl).
Proof.
  split.
  - intros acc st r.
    destruct (script_driver_irrelevant rounds expected acc st) as (He & Hf & Hs & _).
    split_and!; [| |done..].
    + intros pre post. apply script_no_action_then_settle.
    + intros pre post. apply script_settle_after_no_action.
  - intros acc last_count st r. split.
    + apply scraper_never_settles.
    + intros pre post. apply scraper_no_action_ends.
Qed.

Lemma no_action_settle_witness :
  (∃ post', [EvSettle; EvExtract 1 1; EvReveal true] = EvSettle :: post')
  ∧ exit (Scraper.collect 5 ∅ (-1) 0
            [Sample.shows (Sample.root_page [] [Sample.item "c" "a" "one"]) false;
             Sample.shows (Sample.root_page [] []) true]) = NoMoreControl.
Proof.
  split.
  - refine (proj1 (proj1 (no_action_settle (-1)
      [Sample.shows (Sample.list_page [] [Sample.item "c" "a" "one"]) false;
       Sample.shows (Sample.list_page [] [Sample.item "c" "a" "one"]) true]) ∅ 0)
      [EvExtract 0 1] _ _). by vm_compute.
  - refine (proj2 (proj2 (proj2 (no_action_settle 5 _) ∅ (-1) 0) [EvExtract 0 1] [] _)).
    by vm_compute.
Defined.

(** ** How the loops end *)

Lemma script_exit_cases rounds expected acc st :
  let r := Script.collect expected acc st rounds in
  (exit r = Done ∧ expected ≠ -1 ∧ expected ≤ Z.of_nat (size (final r)))
  ∨ (exit r = Stalled ∧ 3 ≤ stagnation r)
  ∨ (exit r = Collecting ∧ length (extracts (events r)) = length rounds).
Proof.
  revert acc st. induction rounds as [|r rounds IH]; intros acc st.
  { right; right. done. }
  destruct (script_round expected acc st r rounds)
    as [(H1 & H2 & Heq) | [(_ & Hst & Heq) | (_ & _ & Heq)]];
    cbv zeta; rewrite Heq; clear Heq.
  - by left.
  - right; left. done.
  - cbn [exit final stagnation events after_events].
    rewrite extracts_script_block. cbn [length].
    destruct (IH (Script.extract_visible_words (page_of r) ∪ acc)
      (if Z.of_nat (size (Script.extract_visible_words (page_of r) ∪ acc))
          =? Z.of_nat (size acc) then st + 1 else 0))
      as [H | [H | [H1 H2]]]; [by left | by right; left | right; right].
    split; [done|]. by rewrite H2.
Qed.




(** ** The accumulator *)

Lemma script_final_keeps rounds expected acc st x :
  x ∈ acc → x ∈ final (Script.collect expected acc st rounds).
Proof.
  revert acc st. induction rounds as [|r rounds IH]; intros acc st Hx; [done|].
  destruct (script_round expected acc st r rounds)
    as [(_ & _ & Heq) | [(_ & _ & Heq) | (_ & _ & Heq)]];
    rewrite Heq; clear Heq; cbn [final after_events].
  - set_solver.
  - set_solver.
  - apply IH. set_solver.
Qed.

Lemma script_final_merges rounds expected acc st r x :
  x ∈ Script.extract_visible_words (page_of r) →
  x ∈ final (Script.collect expected acc st (r :: rounds)).
Proof.
  intros Hx.
  destruct (script_round expected acc st r rounds)
    as [(_ & _ & Heq) | [(_ & _ & Heq) | (_ & _ & Heq)]];
    rewrite Heq; clear Heq; cbn [final after_events].
  - set_solver.
  - set_solver.
  - apply script_final_keeps. set_solver.
Qed.

Lemma scraper_final_one_round expected_total acc last_count st r current :
  Scraper._scrape_visible_words (page_of r) = Some current →
  final (Scraper.collect expected_total acc last_count st [r]) = current ∪ acc.
Proof.
  intros Hcur.
  destruct (scraper_round expected_total acc last_count st r [])
    as [(Hr & _) | (current' & Hcur' & [(_ & Heq) | [(_ & _ & Heq)
         | [(_ & _ & _ & Heq) | (_ & _ & _ & Heq)]]])];
    [congruence | ..]; rewrite Heq; clear Heq; by simplify_eq.
Qed.

(** In the scraping module the accumulator is a dict from the primary term
    to the secondary term: a round that shows [a] with [two] replaces the
    accumulated pair of [a] with [one]. *)
Lemma scraper_merge_replaces_pair :
  map_to_list (final (Scraper.collect 5 ∅ (-1) 0
    [Sample.shows (Sample.root_page [] [Sample.item "c" "a" "one"]) true]))
  = [("a", "one")]
  ∧ map_to_list (final (Scraper.collect 5 ∅ (-1) 0
      [Sample.shows (Sample.root_page [] [Sample.item "c" "a" "one"]) true;
       Sample.shows (Sample.root_page [] [Sample.item "c" "a" "two"]) true]))
    = [("a", "two")].
Proof. by vm_compute. Qed.

(** The script holds both pairs on the same pages, and compares the terms
    after trimming. *)
Example script_holds_both_pairs :
  Py.sorted (elements (final (Script.collect 5 ∅ 0
    [Sample.shows (Sample.list_page [] [Sample.item "c" "a" "one"]) true;
     Sample.shows (Sample.list_page [] [Sample.item "c" " a  " "two"]) true;
     Sample.shows (Sample.list_page [] [Sample.item "c" "a " " one"]) true])))
  = [("a", "one"); ("a", "two")].
Proof. by vm_compute. Qed.

(** C1, as the code has it.  The script's accumulator is a set of pairs: a
    merge never removes a pair, so after a round that shows [(p, s)] the
    accumulator holds [(p, s)] and every [(p, s')] it held before.  The
    scraping module's accumulator is a dict keyed by the primary term: after
    a round that shows [p] with [s] it holds [p] with [s] only. *)
Theorem accumulator_identity (expected : Z) (rounds : list round) (r : round)
    (p s s' : string) :
  (∀ acc st,
     (p, s) ∈ Script.extract_visible_words (page_of r) →
     (p, s') ∈ acc →
     (p, s) ∈ final (Script.collect expected acc st (r :: rounds))
     ∧ (p, s') ∈ final (Script.collect expected acc st (r :: rounds)))
  ∧ (∀ acc last_count st current,
       Scraper._scrape_visible_words (page_of r) = Some current →
       current !! p = Some s →
       acc !! p = Some s' →
       final (Scraper.collect expected acc last_count st [r]) !! p = Some s
       ∧ (s ≠ s' →
          (p, s') ∉ map_to_list (final (Scraper.collect expected acc last_count st [r])))).
Proof.
  split.
  - intros acc st Hs Hs'. split.
    + by apply script_final_merges.
    + by apply script_final_keeps.
  - intros acc last_count st current Hcur Hp _.
    rewrite (scraper_final_one_round _ _ _ _ _ _ Hcur).
    assert ((current ∪ acc) !! p = Some s) as Hl by by apply lookup_union_Some_l.
    split; [done|]. intros Hne Hin%elem_of_map_to_list. congruence.
Qed.

Lemma accumulator_identity_witness :
  (("a", "two") ∈ final (Script.collect 5 {[ ("a", "one") ]} 0
     [Sample.shows (Sample.list_page [] [Sample.item "c" "a" "two"]) true])
   ∧ ("a", "one") ∈ final (Script.collect 5 {[ ("a", "one") ]} 0
     [Sample.shows (Sample.list_page [] [Sample.item "c" "a" "two"]) true]))
  ∧ final (Scraper.collect 5 {[ "a" := "one" ]} 1 0
      [Sample.shows (Sample.root_page [] [Sample.item "c" "a" "two"]) true])
    !! "a" = Some "two".
Proof.
  split.
  - refine (proj1 (accumulator_identity 5 [] _ "a" "two" "one") _ 0 _ _).
    + by vm_compute.
    + by apply elem_of_singleton.
  - refine (proj1 (proj2 (accumulator_identity 5 [] _ "a" "two" "one")
      {[ "a" := "one" ]} 1 0 {[ "a" := "two" ]} _ _ _)).
    + by vm_compute.
    + by vm_compute.
    + by vm_compute.
Defined.

(** ** The flat files *)

Global Instance tuple_le_total : Total Py.tuple_le.
Proof.
  intros [a b] [c d]. unfold Py.tuple_le, Py.tuple_leb. simpl.
  destruct (decide (a = c)) as [->|Hne].
  - rewrite !bool_decide_eq_true_2 by done. apply (total String.le).
  - rewrite !bool_decide_eq_false_2 by congruence. apply (total String.le).
Qed.

Global Instance tuple_le_trans : Transitive Py.tuple_le.
Proof.
  intros [a b] [c d] [e f]. unfold Py.tuple_le, Py.tuple_leb. simpl.
  repeat case_bool_decide; simplify_eq; intros Hle1 Hle2;
    first [ assumption
          | by (etrans; [exact Hle1 | exact Hle2])
          | exfalso; by match goal with
                        | H : ?x ≠ ?y |- _ => apply H, (anti_symm String.le)
                        end ].
Qed.

Global Instance tuple_le_antisymm : AntiSymm (=) Py.tuple_le.
Proof.
  intros [a b] [c d]. unfold Py.tuple_le, Py.tuple_leb. simpl.
  destruct (decide (a = c)) as [->|Hne].
  - rewrite !bool_decide_eq_true_2 by done. intros H1 H2.
    f_equal. by apply (anti_symm String.le).
  - rewrite !bool_decide_eq_false_2 by congruence. intros H1 H2.
    destruct Hne. by apply (anti_symm String.le).
Qed.

Lemma StronglySorted_strict (l : list (string * string)) :
  NoDup l → StronglySorted Py.tuple_le l → StronglySorted Py.tuple_lt l.
Proof.
  intros Hnd Hs. induction Hs as [|x l Hs IH Hall]; [constructor|].
  apply NoDup_cons in Hnd as [Hx Hnd]. constructor; [by apply IH|].
  apply Forall_forall. intros y Hy. split.
  - by eapply Forall_forall in Hall.
  - intros ->. done.
Qed.

(** [sorted] on a list without duplicates: the same pairs, strictly
    ascending. *)
Lemma sorted_spec (l : list (string * string)) :
  NoDup l → StronglySorted Py.tuple_lt (Py.sorted l) ∧ Py.sorted l ≡ₚ l.
Proof.
  intros Hnd. unfold Py.sorted. split; [|apply merge_sort_Permutation].
  apply StronglySorted_strict.
  - by rewrite merge_sort_Permutation.
  - apply StronglySorted_merge_sort; apply _.
Qed.

(** C9.  Both writers emit the pairs of the accumulator, each once, in
    strictly ascending order of the tuple (primary term, secondary term):
    the script one JSON object per pair, the scraping module one row per
    pair after the header row.  For the accumulator of the three pairs
    [("b","two")], [("a","one")], [("a","two")] the script writes
    [("a","one")], [("a","two")], [("b","two")] in that order. *)
Theorem flat_file_rows_sorted :
  (∀ collected : gset (string * string),
     StronglySorted Py.tuple_lt (Script.pair_of <$> Script.write_output collected)
     ∧ Script.pair_of <$> Script.write_output collected ≡ₚ elements collected
     ∧ length (Script.write_output collected) = size collected)
  ∧ (∀ words : gmap string string,
       ∃ rows,
         Scraper.save_words_to_file words
           = Scraper.header :: (Scraper.row_of <$> rows)
         ∧ StronglySorted Py.tuple_lt rows
         ∧ rows ≡ₚ map_to_list words
         ∧ length rows = size words)
  ∧ Script.write_output {[ ("b", "two"); ("a", "one"); ("a", "two") ]}
    = [ {| Script.word := "a"; Script.translation := "one" |};
        {| Script.word := "a"; Script.translation := "two" |};
        {| Script.word := "b"; Script.translation := "two" |} ].
Proof.
  split_and!.
  - intros collected. unfold Script.write_output.
    rewrite <- list_fmap_compose.
    assert ((Script.pair_of ∘ (λ wt : string * string,
               {| Script.word := wt.1; Script.translation := wt.2 |}))
            <$> Py.sorted (elements collected) = Py.sorted (elements collected))
      as ->.
    { rewrite <- (list_fmap_id (Py.sorted _)) at 2.
      apply list_fmap_ext. by intros _ [w t] _. }
    destruct (sorted_spec (elements collected)) as [Hs Hp]; [apply NoDup_elements|].
    split_and!; [done..|].
    rewrite length_fmap. unfold size, set_size. simpl. by rewrite Hp.
  - intros words. exists (Py.sorted (map_to_list words)).
    destruct (sorted_spec (map_to_list words)) as [Hs Hp].
    { apply NoDup_map_to_list. }
    split_and!; [done..|].
    by rewrite Hp, length_map_to_list.
  - by vm_compute.
Qed.

Example save_words_to_file_rows :
  Scraper.save_words_to_file {[ "b" := "two"; "a" := "one" ]}
  = [["target_language_term"; "english_term"]; ["a"; "one"]; ["b"; "two"]].
Proof. by vm_compute. Qed.

(** ** The relational store *)

Section Store.

Import Scraper.

Variable fails : nat → bool.

(** What one call on the session leaves as it was. *)
Lemma query_term_spec lid english target s :
  ∃ s' r,
    query_term fails lid english target s = (s', r)
    ∧ committed s' = committed s ∧ new_languages s' = new_languages s
    ∧ new_terms s' = new_terms s ∧ commits s' = commits s
    ∧ closed s' = closed s.
Proof.
  unfold query_term, call. destruct (fails (calls s)); by eexists _, _.
Qed.

Lemma query_language_spec c s :
  ∃ s' r,
    query_language fails c s = (s', r)
    ∧ committed s' = committed s ∧ new_languages s' = new_languages s
    ∧ new_terms s' = new_terms s ∧ commits s' = commits s
    ∧ closed s' = closed s
    ∧ ∀ l, r = Some (Some l) → l ∈ languages (committed s).
Proof.
  unfold query_language, call. destruct (fails (calls s)).
  - eexists _, _. by split_and!.
  - eexists _, _. split_and!; try done. cbn [committed].
    intros l [= Hl]. apply head_Some_elem_of in Hl.
    by apply list_elem_of_filter in Hl as [_ Hl].
Qed.

Lemma refresh_spec c s :
  ∃ s' r,
    refresh fails c s = (s', r)
    ∧ committed s' = committed s ∧ new_languages s' = new_languages s
    ∧ new_terms s' = new_terms s ∧ commits s' = commits s
    ∧ closed s' = closed s.
Proof.
  unfold refresh, call. destruct (fails (calls s)); [by eexists _, _|].
  cbn [committed]. destruct (last _); by eexists _, _.
Qed.

Lemma add_term_spec t s :
  ∃ s' r,
    add_term fails t s = (s', r)
    ∧ committed s' = committed s ∧ new_languages s' = new_languages s
    ∧ commits s' = commits s ∧ closed s' = closed s
    ∧ (r = None ∧ new_terms s' = new_terms s
       ∨ r = Some () ∧ new_terms s' = new_terms s ++ [t]).
Proof.
  unfold add_term, call. destruct (fails (calls s)); eexists _, _;
    (split; [done|]); cbn; split_and!; auto.
Qed.

Lemma add_language_spec c n s :
  ∃ s' r,
    add_language fails c n s = (s', r)
    ∧ committed s' = committed s ∧ new_terms s' = new_terms s
    ∧ commits s' = commits s ∧ closed s' = closed s
    ∧ (r = None ∨ r = Some () ∧ new_languages s' = new_languages s ++ [(c, n)]).
Proof.
  unfold add_language, call. destruct (fails (calls s)); eexists _, _;
    (split; [done|]); cbn; split_and!; auto.
Qed.

(** A commit writes everything that waits, or raises and writes nothing. *)
Lemma commit_spec s :
  ∃ s' r,
    commit fails s = (s', r)
    ∧ closed s' = closed s
    ∧ (r = None ∧ committed s' = committed s ∧ commits s' = commits s
       ∧ new_terms s' = new_terms s ∧ new_languages s' = new_languages s
       ∨ r = Some ()
         ∧ terms (committed s') = terms (committed s) ++ new_terms s
         ∧ languages (committed s')
           = insert_languages (languages (committed s)) (new_languages s)
         ∧ new_terms s' = [] ∧ new_languages s' = []
         ∧ commits s' = S (commits s)).
Proof.
  unfold commit, call. destruct (fails (calls s)); eexists _, _;
    (split; [done|]); cbn; (split; [done|]).
  - left. by split_and!.
  - right. by split_and!.
Qed.

(** The loop over the pairs only adds to what waits in the session. *)
Lemma insert_terms_spec lid items added skipped s :
  ∃ s' r new,
    insert_terms fails lid items added skipped s = (s', r)
    ∧ committed s' = committed s
    ∧ new_languages s' = new_languages s
    ∧ new_terms s' = new_terms s ++ new
    ∧ commits s' = commits s
    ∧ closed s' = closed s
    ∧ ∀ a k, r = Some (a, k) →
        a = added + Z.of_nat (length new)
        ∧ a + k = added + skipped + Z.of_nat (length items).
Proof.
  revert added skipped s.
  induction items as [|[target english] items IH]; intros added skipped s.
  { exists s, (Some (added, skipped)), []. rewrite app_nil_r.
    split_and!; try done. intros a k [= <- <-]. simpl. lia. }
  cbn [insert_terms]. unfold mbind, M_bind.
  destruct (query_term_spec lid english target s)
    as (s1 & r1 & -> & Hc1 & Hl1 & Ht1 & Hn1 & Hd1).
  destruct r1 as [[existing|]|].
  - destruct (IH added (skipped + 1) s1)
      as (s2 & r2 & new & -> & Hc2 & Hl2 & Ht2 & Hn2 & Hd2 & Hr2).
    exists s2, r2, new. split_and!; try congruence.
    intros a k Hr. destruct (Hr2 a k Hr) as [-> Hk]. rewrite length_cons. lia.
  - destruct (add_term_spec (new_term lid english target) s1)
      as (s2 & r2 & -> & Hc2 & Hl2 & Hn2 & Hd2 & [[-> Ht2] | [-> Ht2]]).
    { exists s2, None, []. rewrite app_nil_r. split_and!; congruence. }
    destruct (IH (added + 1) skipped s2)
      as (s3 & r3 & new & -> & Hc3 & Hl3 & Ht3 & Hn3 & Hd3 & Hr3).
    exists s3, r3, (new_term lid english target :: new).
    split_and!; try congruence.
    + rewrite Ht3, Ht2, Ht1. by rewrite <- app_assoc.
    + intros a k Hr. destruct (Hr3 a k Hr) as [-> Hk]. rewrite !length_cons. lia.
  - exists s1, None, []. rewrite app_nil_r. split_and!; congruence.
Qed.

(** Ensuring the language writes no term, and leaves nothing waiting when
    it returns. *)
Lemma ensure_language_spec s :
  new_languages s = [] → new_terms s = [] →
  ∃ s' r,
    ensure_language fails s = (s', r)
    ∧ terms (committed s') = terms (committed s)
    ∧ new_terms s' = []
    ∧ closed s' = closed s
    ∧ (languages (committed s') = languages (committed s) ∧ commits s' = commits s
       ∨ languages (committed s')
         = insert_languages (languages (committed s)) [("ar", "Arabic")]
         ∧ commits s' = S (commits s))
    ∧ (r ≠ None → new_languages s' = []).
Proof.
  intros Hl0 Ht0. unfold ensure_language, mbind, M_bind.
  destruct (query_language_spec "ar" s)
    as (s1 & r1 & -> & Hc1 & Hl1 & Ht1 & Hn1 & Hd1 & _).
  destruct r1 as [[lang|]|].
  - exists s1, (Some lang). split_and!; try congruence; [done|].
    left. split; congruence.
  - destruct (add_language_spec "ar" "Arabic" s1)
      as (s2 & r2 & -> & Hc2 & Ht2 & Hn2 & Hd2 & [-> | [-> Hl2]]).
    { exists s2, None. split_and!; try congruence. left. split; congruence. }
    destruct (commit_spec s2)
      as (s3 & r3 & -> & Hd3 & [(-> & Hc3 & Hn3 & Hnt3 & Hnl3)
           | (-> & Ht3 & Hl3 & Hnt3 & Hnl3 & Hn3)]).
    { exists s3, None. split_and!; try congruence.
      left. split; congruence. }
    destruct (refresh_spec "ar" s3)
      as (s4 & r4 & -> & Hc4 & Hl4 & Ht4 & Hn4 & Hd4).
    exists s4, r4. split_and!; try congruence.
    + rewrite Hc4, Ht3, Ht2, Ht1, Ht0, app_nil_r. congruence.
    + right. rewrite Hc4, Hl3, Hl2, Hl1, Hl0, Hc2, Hc1. split; [done|]. congruence.
  - exists s1, None. split_and!; try congruence. left. split; congruence.
Qed.


End Store.


(** ** The extractors *)



Section Attributes.

Variable f : list (string * string) → list (string * string).












(** The scraping module's extractor reads the [id] attribute only. *)
Hypothesis f_keeps_id : ∀ a, assoc "id" (f a) = assoc "id" a.






End Attributes.


Lemma extract_item_pair results li :
  Script.extract_item results li
  = match Script.pair_of_item li with
    | Some x => {[ x ]} ∪ results
    | None => results
    end.
Proof.
  unfold Script.extract_item, Script.pair_of_item.
  destruct (first_text "h3" li) as [h3|]; [|done]. simpl.
  destruct (first_text "p" li) as [p|]; [|done]. simpl.
  by destruct (nonempty (Py.strip h3) && nonempty (Py.strip p)).
Qed.

Lemma elem_of_foldl_extract_item l acc x :
  x ∈ foldl Script.extract_item acc l
  ↔ x ∈ acc ∨ ∃ li, li ∈ l ∧ Script.pair_of_item li = Some x.
Proof.
  revert acc. induction l as [|li l IH]; intros acc; simpl.
  { split; [by left|]. intros [?|(li & Hli & _)]; [done|]. by apply elem_of_nil in Hli. }
  rewrite IH, extract_item_pair. split.
  - intros [Hx | (li' & Hli' & Hp)].
    + destruct (Script.pair_of_item li) as [y|] eqn:Hy; [|by left].
      apply elem_of_union in Hx as [->%elem_of_singleton | Hx]; [|by left].
      right. exists li. split; [apply list_elem_of_here | done].
    + right. exists li'. split; [by apply list_elem_of_further | done].
  - intros [Hx | (li' & Hli' & Hp)].
    + left. destruct (Script.pair_of_item li); [|done].
      apply elem_of_union. by right.
    + apply elem_of_cons in Hli' as [-> | Hli'].
      * left. rewrite Hp. apply elem_of_union. left. by apply elem_of_singleton.
      * right. eauto.
Qed.

(** What the script's extractor returns: the pair of every [li] below a [ul]
    below a [section] that gives one. *)
Lemma elem_of_extract_visible_words page x :
  x ∈ Script.extract_visible_words page
  ↔ ∃ li, li ∈ section_ul_li false false page ∧ Script.pair_of_item li = Some x.
Proof.
  unfold Script.extract_visible_words. rewrite elem_of_foldl_extract_item.
  split; [|by right]. intros [Hx|H]; [|done]. by apply not_elem_of_empty in Hx.
Qed.







(** * Further properties of the two collectors *)

(** ** Sizes along a run *)

Lemma script_sizes_chained rounds expected acc st :
  Trace.chained (Z.of_nat (size acc))
    (extracts (events (Script.collect expected acc st rounds)))
  ∧ Trace.last_size (Z.of_nat (size acc))
      (extracts (events (Script.collect expected acc st rounds)))
    = Z.of_nat (size (final (Script.collect expected acc st rounds))).
Proof.
  revert acc st. induction rounds as [|r rounds IH]; intros acc st; [done|].
  assert (Z.of_nat (size acc)
          ≤ Z.of_nat (size (Script.extract_visible_words (page_of r) ∪ acc)))
    as Hle.
  { apply inj_le, subseteq_size, union_subseteq_r. }
  destruct (script_round expected acc st r rounds)
    as [(_ & _ & Heq) | [(_ & _ & Heq) | (_ & _ & Heq)]];
    rewrite Heq; clear Heq; cbn [events final after_events].
  - done.
  - rewrite <- (app_nil_r (_ :: _)), extracts_script_block. done.
  - rewrite extracts_script_block.
    destruct (IH (Script.extract_visible_words (page_of r) ∪ acc)
      (if Z.of_nat (size (Script.extract_visible_words (page_of r) ∪ acc))
          =? Z.of_nat (size acc) then st + 1 else 0)) as [Hc Hl].
    split; [done|]. exact Hl.
Qed.

Lemma gmap_union_size (current acc : gmap string string) :
  (size acc ≤ size (current ∪ acc))%nat.
Proof.
  rewrite <- !size_dom. apply subseteq_size. rewrite dom_union. set_solver.
Qed.

Lemma scraper_sizes_chained rounds expected_total acc last_count st :
  Trace.chained (Z.of_nat (size acc))
    (extracts (events (Scraper.collect expected_total acc last_count st rounds)))
  ∧ Trace.last_size (Z.of_nat (size acc))
      (extracts (events (Scraper.collect expected_total acc last_count st rounds)))
    = Z.of_nat (size (final (Scraper.collect expected_total acc last_count st rounds))).
Proof.
  revert acc last_count st.
  induction rounds as [|r rounds IH]; intros acc last_count st; [done|].
  destruct (scraper_round expected_total acc last_count st r rounds)
    as [(_ & Heq) | (current & _ & [(_ & Heq) | [(_ & _ & Heq)
         | [(_ & _ & _ & Heq) | (_ & _ & _ & Heq)]]])];
    rewrite Heq; clear Heq; cbn [events final after_events];
    try (pose proof (gmap_union_size current acc) as Hle;
         apply inj_le in Hle); try done.
  destruct (IH (current ∪ acc) (Z.of_nat (size (current ∪ acc)))
    (if Z.of_nat (size (current ∪ acc)) =? last_count then st + 1 else 0))
    as [Hc Hl].
  split; [done|]. exact Hl.
Qed.

(** X1.  In both loops the accumulator never shrinks: every extraction pass
    starts from the size the pass before left, ends with at least as many
    entries, and the size after the last pass is the size of the
    accumulator the loop ends with. *)
Theorem sizes_never_decrease (expected : Z) (rounds : list round) :
  (∀ acc st,
     let r := Script.collect expected acc st rounds in
     Trace.chained (Z.of_nat (size acc)) (extracts (events r))
     ∧ Trace.last_size (Z.of_nat (size acc)) (extracts (events r))
       = Z.of_nat (size (final r)))
  ∧ (∀ acc last_count st,
       let r := Scraper.collect expected acc last_count st rounds in
       Trace.chained (Z.of_nat (size acc)) (extracts (events r))
       ∧ Trace.last_size (Z.of_nat (size acc)) (extracts (events r))
         = Z.of_nat (size (final r))).
Proof.
  split.
  - intros acc st. apply script_sizes_chained.
  - intros acc last_count st. apply scraper_sizes_chained.
Qed.

(** ** What the accumulator ends with *)

(** X2.  The script ends with the pairs it started with and the pairs of every
    page it extracted from, and nothing else. *)
Theorem script_final_is_union (expected : Z) (rounds : list round)
    (acc : gset (string * string)) (st : Z) :
  let r := Script.collect expected acc st rounds in
  final r
  = acc ∪ ⋃ ((Script.extract_visible_words ∘ page_of)
               <$> take (length (extracts (events r))) rounds).
Proof.
  revert acc st. induction rounds as [|r rounds IH]; intros acc st.
  { simpl. by rewrite (right_id_L ∅ (∪)). }
  destruct (script_round expected acc st r rounds)
    as [(_ & _ & Heq) | [(_ & _ & Heq) | (_ & _ & Heq)]];
    cbv zeta; rewrite Heq; clear Heq; cbn [events final after_events].
  - simpl. rewrite ?take_0. simpl. rewrite (right_id_L ∅ (∪)). apply (comm_L (∪)).
  - rewrite <- (app_nil_r (_ :: _)), extracts_script_block.
    simpl. rewrite ?take_0. simpl. rewrite (right_id_L ∅ (∪)). apply (comm_L (∪)).
  - rewrite extracts_script_block. cbn [length take fmap list_fmap].
    rewrite IH. simpl.
    rewrite (assoc_L (∪)). f_equal. apply (comm_L (∪)).
Qed.

(** X3.  The scraping module never loses a primary term: the keys of the
    accumulator at the start of the loop are keys of the accumulator it
    ends with. *)
Theorem scraper_keys_kept (expected_total : Z) (rounds : list round)
    (acc : gmap string string) (last_count st : Z) (p : string) :
  is_Some (acc !! p) →
  is_Some (final (Scraper.collect expected_total acc last_count st rounds) !! p).
Proof.
  revert acc last_count st.
  induction rounds as [|r rounds IH]; intros acc last_count st Hp; [done|].
  destruct (scraper_round expected_total acc last_count st r rounds)
    as [(_ & Heq) | (current & _ & [(_ & Heq) | [(_ & _ & Heq)
         | [(_ & _ & _ & Heq) | (_ & _ & _ & Heq)]]])];
    rewrite Heq; clear Heq; cbn [final after_events]; [done|..];
    assert (is_Some ((current ∪ acc) !! p)) as Hp'
      by (apply lookup_union_is_Some; by right); [done..|].
  by apply IH.
Qed.

Lemma scraper_keys_kept_witness :
  is_Some (final (Scraper.collect 5 {[ "a" := "one" ]} 1 0
    [Sample.shows (Sample.root_page [] [Sample.item "c" "b" "two"]) true])
    !! "a").
Proof. apply scraper_keys_kept. by exists "one". Defined.

(** ** The loops end *)

Lemma script_collect_halts (U : gset (string * string)) rounds expected acc st :
  0 ≤ st < 3 →
  acc ⊆ U →
  Forall (λ r, Script.extract_visible_words (page_of r) ⊆ U) rounds →
  3 * (Z.of_nat (size U) - Z.of_nat (size acc)) + 3 - st ≤ Z.of_nat (length rounds) →
  exit (Script.collect expected acc st rounds) ≠ Collecting.
Proof.
  revert acc st. induction rounds as [|r rounds IH]; intros acc st Hst Hacc Hall Hlen.
  { apply subseteq_size in Hacc. simpl in Hlen. lia. }
  apply Forall_cons in Hall as [Hr Hall].
  destruct (script_round expected acc st r rounds)
    as [(_ & _ & Heq) | [(_ & _ & Heq) | (_ & Hlt & Heq)]];
    rewrite Heq; clear Heq; cbn [exit after_events]; [done..|].
  assert (Script.extract_visible_words (page_of r) ∪ acc ⊆ U) as Hacc'
    by by apply union_subseteq.
  assert (size acc ≤ size (Script.extract_visible_words (page_of r) ∪ acc))%nat
    as Hle by apply subseteq_size, union_subseteq_r.
  apply IH; [| done | done |].
  - case_match; lia.
  - rewrite length_cons in Hlen. apply subseteq_size in Hacc'.
    destruct (Z.eqb_spec
      (Z.of_nat (size (Script.extract_visible_words (page_of r) ∪ acc)))
      (Z.of_nat (size acc))); lia.
Qed.

Lemma scraper_collect_halts_later (U : gset string) rounds expected_total acc st :
  0 ≤ st < 3 →
  dom acc ⊆ U →
  Forall (λ r, ∀ current, Scraper._scrape_visible_words (page_of r) = Some current →
                          dom current ⊆ U) rounds →
  3 * (Z.of_nat (size U) - Z.of_nat (size acc)) + 3 - st ≤ Z.of_nat (length rounds) →
  exit (Scraper.collect expected_total acc (Z.of_nat (size acc)) st rounds)
  ≠ Collecting.
Proof.
  revert acc st. induction rounds as [|r rounds IH]; intros acc st Hst Hacc Hall Hlen.
  { apply subseteq_size in Hacc. rewrite size_dom in Hacc. simpl in Hlen. lia. }
  apply Forall_cons in Hall as [Hr Hall].
  destruct (scraper_round expected_total acc (Z.of_nat (size acc)) st r rounds)
    as [(_ & Heq) | (current & Hcur & [(_ & Heq) | [(_ & _ & Heq)
         | [(_ & _ & _ & Heq) | (_ & Hlt & _ & Heq)]]])];
    rewrite Heq; clear Heq; cbn [exit after_events]; [done..|].
  assert (dom (current ∪ acc) ⊆ U) as Hacc'.
  { rewrite dom_union. apply union_subseteq. split; [by apply Hr | done]. }
  pose proof (gmap_union_size current acc) as Hle.
  apply IH; [| done | done |].
  - case_match; lia.
  - rewrite length_cons in Hlen. apply subseteq_size in Hacc'.
    rewrite size_dom in Hacc'.
    destruct (Z.eqb_spec (Z.of_nat (size (current ∪ acc))) (Z.of_nat (size acc)));
      lia.
Qed.

(** X4.  Neither loop runs forever on a page that can show only finitely many
    entries.  When every pair the pages show lies in a set [U], the script's
    loop has ended after [3 * (size U - size acc) + 3 - st] rounds at most
    (three rounds for each pair still to come, and three to stall); the
    scraping module's loop, from its start, after [3 * size U + 4] rounds
    at most, [U] being a set of primary terms. *)
Theorem loops_halt (expected : Z) (rounds : list round) :
  (∀ (U : gset (string * string)) acc st,
     0 ≤ st < 3 →
     acc ⊆ U →
     Forall (λ r, Script.extract_visible_words (page_of r) ⊆ U) rounds →
     3 * (Z.of_nat (size U) - Z.of_nat (size acc)) + 3 - st
       ≤ Z.of_nat (length rounds) →
     exit (Script.collect expected acc st rounds) ≠ Collecting)
  ∧ (∀ U : gset string,
       Forall (λ r, ∀ current,
                 Scraper._scrape_visible_words (page_of r) = Some current →
                 dom current ⊆ U) rounds →
       3 * Z.of_nat (size U) + 4 ≤ Z.of_nat (length rounds) →
       exit (Scraper.collect expected ∅ (-1) 0 rounds) ≠ Collecting).
Proof.
  split.
  - intros U acc st. apply script_collect_halts.
  - intros U Hall Hlen. destruct rounds as [|r rounds]; [simpl in Hlen; lia|].
    apply Forall_cons in Hall as [Hr Hall].
    destruct (scraper_round expected ∅ (-1) 0 r rounds)
      as [(_ & Heq) | (current & Hcur & [(_ & Heq) | [(_ & _ & Heq)
           | [(_ & _ & _ & Heq) | (_ & Hlt & _ & Heq)]]])];
      rewrite Heq; clear Heq; cbn [exit after_events]; [done..|].
    assert (dom (current ∪ (∅ : gmap string string)) ⊆ U) as Hacc'.
    { rewrite dom_union, dom_empty. apply union_subseteq.
      split; [by apply Hr | apply empty_subseteq]. }
    apply (scraper_collect_halts_later U); [| done | done |].
    + case_match; lia.
    + rewrite length_cons in Hlen. apply subseteq_size in Hacc'.
      rewrite size_dom in Hacc'. case_match; lia.
Qed.

Lemma loops_halt_witness :
  exit (Script.collect 5 ∅ 0
          (replicate 6 (Sample.shows
             (Sample.list_page [] [Sample.item "c" "a" "one"]) true)))
  ≠ Collecting
  ∧ exit (Scraper.collect 5 ∅ (-1) 0
            (replicate 7 (Sample.shows
               (Sample.root_page [] [Sample.item "c" "a" "one"]) true)))
    ≠ Collecting.
Proof.
  split.
  - refine (proj1 (loops_halt 5 _) {[ ("a", "one") ]} ∅ 0 _ _ _ _).
    + lia.
    + apply empty_subseteq.
    + repeat constructor; by vm_compute.
    + by vm_compute.
  - refine (proj2 (loops_halt 5 _) {[ "a" ]} _ _).
    + repeat constructor; intros current [= <-]; by vm_compute.
    + by vm_compute.
Defined.

(** ** A stall is never declared early *)

Lemma last_three {A} (l : list A) :
  (3 ≤ length l)%nat → ∃ l' x y z, l = l' ++ [x; y; z].
Proof.
  intros Hlen. exists (take (length l - 3) l).
  pose proof (take_drop (length l - 3) l) as Htd.
  pose proof (length_drop l (length l - 3)) as Hd.
  destruct (drop (length l - 3) l) as [|x [|y [|z [|w d]]]]; simpl in Hd; try lia.
  by exists x, y, z.
Qed.

Lemma script_stall_suffix rounds expected acc st :
  0 ≤ st →
  exit (Script.collect expected acc st rounds) = Stalled →
  ∃ pre suf,
    extracts (events (Script.collect expected acc st rounds)) = pre ++ suf
    ∧ Forall Trace.stagnant suf
    ∧ (3 ≤ Z.of_nat (length suf) ∨ pre = [] ∧ 3 ≤ st + Z.of_nat (length suf)).
Proof.
  revert acc st. induction rounds as [|r rounds IH]; intros acc st Hst Hexit; [done|].
  destruct (script_round expected acc st r rounds)
    as [(_ & _ & Heq) | [(_ & Hge & Heq) | (_ & Hlt & Heq)]];
    rewrite Heq in *; clear Heq; cbn [events exit after_events] in *; [done|..].
  - rewrite <- (app_nil_r (_ :: _)), extracts_script_block.
    destruct (Z.eqb_spec
      (Z.of_nat (size (Script.extract_visible_words (page_of r) ∪ acc)))
      (Z.of_nat (size acc))) as [Hsame|Hdiff]; [|lia].
    exists [], [(Z.of_nat (size acc),
                 Z.of_nat (size (Script.extract_visible_words (page_of r) ∪ acc)))].
    split_and!; [done | |].
    { constructor; [|done]. unfold Trace.stagnant. simpl. lia. }
    right. split; [done|]. simpl. lia.
  - rewrite extracts_script_block.
    destruct (Z.eqb_spec
      (Z.of_nat (size (Script.extract_visible_words (page_of r) ∪ acc)))
      (Z.of_nat (size acc))) as [Hsame|Hdiff].
    + destruct (IH _ (st + 1) ltac:(lia) Hexit)
        as (pre & suf & -> & Hsuf & [Hlen | [-> Hlen]]).
      * eexists (_ :: pre), suf. split_and!; [done..|]. by left.
      * eexists [], (_ :: suf). split_and!; [done | |].
        { constructor; [|done]. unfold Trace.stagnant. simpl. lia. }
        right. split; [done|]. rewrite length_cons. lia.
    + destruct (IH _ 0 ltac:(lia) Hexit)
        as (pre & suf & -> & Hsuf & [Hlen | [-> Hlen]]).
      * eexists (_ :: pre), suf. split_and!; [done..|]. by left.
      * eexists [_], suf. split_and!; [done..|]. left. lia.
Qed.

Lemma scraper_stall_suffix rounds expected_total acc st :
  0 ≤ st →
  exit (Scraper.collect expected_total acc (Z.of_nat (size acc)) st rounds) = Stalled →
  ∃ pre suf,
    extracts (events (Scraper.collect expected_total acc (Z.of_nat (size acc)) st rounds))
      = pre ++ suf
    ∧ Forall Trace.stagnant suf
    ∧ (3 ≤ Z.of_nat (length suf) ∨ pre = [] ∧ 3 ≤ st + Z.of_nat (length suf)).
Proof.
  revert acc st. induction rounds as [|r rounds IH]; intros acc st Hst Hexit; [done|].
  destruct (scraper_round expected_total acc (Z.of_nat (size acc)) st r rounds)
    as [(_ & Heq) | (current & _ & [(_ & Heq) | [(_ & Hge & Heq)
         | [(_ & _ & _ & Heq) | (_ & Hlt & _ & Heq)]]])];
    rewrite Heq in *; clear Heq; cbn [events exit after_events] in *; try done.
  - destruct (Z.eqb_spec (Z.of_nat (size (current ∪ acc))) (Z.of_nat (size acc)))
      as [Hsame|Hdiff]; [|lia].
    exists [], [(Z.of_nat (size acc), Z.of_nat (size (current ∪ acc)))].
    split_and!; [done | |].
    { constructor; [|done]. unfold Trace.stagnant. simpl. lia. }
    right. split; [done|]. simpl. lia.
  - change (extracts _) with
      ((Z.of_nat (size acc), Z.of_nat (size (current ∪ acc)))
       :: extracts (events (Scraper.collect expected_total (current ∪ acc)
            (Z.of_nat (size (current ∪ acc)))
            (if Z.of_nat (size (current ∪ acc)) =? Z.of_nat (size acc)
             then st + 1 else 0) rounds))).
    destruct (Z.eqb_spec (Z.of_nat (size (current ∪ acc))) (Z.of_nat (size acc)))
      as [Hsame|Hdiff].
    + destruct (IH _ (st + 1) ltac:(lia) Hexit)
        as (pre & suf & -> & Hsuf & [Hlen | [-> Hlen]]).
      * eexists (_ :: pre), suf. split_and!; [done..|]. by left.
      * eexists [], (_ :: suf). split_and!; [done | |].
        { constructor; [|done]. unfold Trace.stagnant. simpl. lia. }
        right. split; [done|]. rewrite length_cons. lia.
    + destruct (IH _ 0 ltac:(lia) Hexit)
        as (pre & suf & -> & Hsuf & [Hlen | [-> Hlen]]).
      * eexists (_ :: pre), suf. split_and!; [done..|]. by left.
      * eexists [_], suf. split_and!; [done..|]. left. lia.
Qed.

(** X5.  A loop that ends stalled has just made three rounds in a row that added
    nothing: the script's loop from its start ([stagnant_rounds = 0]), and
    the scraping module's loop from its start ([last_count = -1]), where the
    three rounds come after at least one other round. *)
Theorem stall_needs_three_stagnant_rounds (expected : Z) (rounds : list round) :
  (∀ acc,
     exit (Script.collect expected acc 0 rounds) = Stalled →
     ∃ pre p1 p2 p3,
       extracts (events (Script.collect expected acc 0 rounds))
         = pre ++ [p1; p2; p3]
       ∧ Trace.stagnant p1 ∧ Trace.stagnant p2 ∧ Trace.stagnant p3)
  ∧ (∀ acc,
       exit (Scraper.collect expected acc (-1) 0 rounds) = Stalled →
       ∃ p pre p1 p2 p3,
         extracts (events (Scraper.collect expected acc (-1) 0 rounds))
           = p :: pre ++ [p1; p2; p3]
         ∧ Trace.stagnant p1 ∧ Trace.stagnant p2 ∧ Trace.stagnant p3).
Proof.
  assert (∀ pre suf : list (Z * Z),
    Forall Trace.stagnant suf →
    3 ≤ Z.of_nat (length suf) ∨ pre = [] ∧ 3 ≤ 0 + Z.of_nat (length suf) →
    ∃ pre' p1 p2 p3, pre ++ suf = pre' ++ [p1; p2; p3]
      ∧ Trace.stagnant p1 ∧ Trace.stagnant p2 ∧ Trace.stagnant p3) as Hlast.
  { intros pre suf Hsuf Hlen.
    destruct (last_three suf) as (l & x & y & z & ->); [destruct Hlen; lia|].
    apply Forall_app in Hsuf as [_ Hxyz].
    apply Forall_cons in Hxyz as [Hx Hxyz].
    apply Forall_cons in Hxyz as [Hy Hxyz].
    apply Forall_cons in Hxyz as [Hz _].
    exists (pre ++ l), x, y, z. by rewrite <- app_assoc. }
  split.
  - intros acc Hexit.
    destruct (script_stall_suffix rounds expected acc 0 ltac:(lia) Hexit)
      as (pre & suf & -> & Hsuf & Hlen).
    by apply Hlast.
  - intros acc Hexit. destruct rounds as [|r rounds]; [done|].
    destruct (scraper_round expected acc (-1) 0 r rounds)
      as [(_ & Heq) | (current & _ & [(_ & Heq) | [(_ & Hge & Heq)
           | [(_ & _ & _ & Heq) | (_ & Hlt & _ & Heq)]]])];
      rewrite Heq in *; clear Heq; cbn [events exit after_events] in *; try done.
    { destruct (_ =? _) in Hge; lia. }
    assert ((Z.of_nat (size (current ∪ acc)) =? -1) = false) as Hne
      by (apply Z.eqb_neq; lia).
    rewrite Hne in *.
    destruct (scraper_stall_suffix rounds expected (current ∪ acc) 0 ltac:(lia) Hexit)
      as (pre & suf & Hex & Hsuf & Hlen).
    destruct (Hlast pre suf Hsuf Hlen) as (pre' & p1 & p2 & p3 & Hpre & H1 & H2 & H3).
    exists (Z.of_nat (size acc), Z.of_nat (size (current ∪ acc))), pre', p1, p2, p3.
    split; [|done]. simpl. fold extracts. by rewrite Hex, Hpre.
Qed.

Lemma stall_needs_three_stagnant_rounds_witness :
  ∃ pre p1 p2 p3,
    extracts (events (Script.collect (-1) ∅ 0
      (replicate 3 (Sample.shows (Sample.list_page [] []) false))))
    = pre ++ [p1; p2; p3]
    ∧ Trace.stagnant p1 ∧ Trace.stagnant p2 ∧ Trace.stagnant p3.
Proof.
  refine (proj1 (stall_needs_three_stagnant_rounds (-1) _) ∅ _). by vm_compute.
Defined.

(** ** The report of the script *)

Lemma script_stalled_below_expected rounds expected acc st :
  exit (Script.collect expected acc st rounds) = Stalled →
  expected ≠ -1 →
  Z.of_nat (size (final (Script.collect expected acc st rounds))) < expected.
Proof.
  revert acc st. induction rounds as [|r rounds IH]; intros acc st Hexit Hknown;
    [done|].
  destruct (script_round expected acc st r rounds)
    as [(_ & _ & Heq) | [(Hn & _ & Heq) | (_ & _ & Heq)]];
    rewrite Heq in *; clear Heq; cbn [exit final after_events] in *; [done|..].
  - apply Z.nle_gt. tauto.
  - by apply IH.
Qed.

(** X6.  What [main] reports after its loop.  It writes as many lines as the
    accumulator holds pairs.  It warns about the count never when the
    expected count is unknown, always when the loop stalled with a known
    expected count, and, when the loop ended on the count check, exactly when
    more pairs were collected than expected. *)
Theorem script_main_report (page0 : node) (rounds : list round)
    (rep : Script.report) :
  Script.main page0 rounds = Some rep →
  length (Script.lines rep) = size (final (Script.loop rep))
  ∧ (Script.expected_count rep = -1 → Script.warning rep = false)
  ∧ (exit (Script.loop rep) = Stalled → Script.expected_count rep ≠ -1 →
     Script.warning rep = true)
  ∧ (exit (Script.loop rep) = Done →
     (Script.warning rep = true
      ↔ Script.expected_count rep < Z.of_nat (size (final (Script.loop rep))))).
Proof.
  unfold Script.main. destruct (Script.word_list_present page0); [|done].
  intros [= <-]. cbn [Script.lines Script.loop Script.expected_count Script.warning].
  set (expected := Script.get_expected_count page0).
  set (r := Script.collect expected ∅ 0 rounds).
  split_and!.
  - unfold Script.write_output. rewrite length_fmap.
    unfold Py.sorted. rewrite merge_sort_Permutation. done.
  - intros ->. by rewrite bool_decide_eq_false_2 by (intros H; by apply H).
  - intros Hexit Hknown.
    pose proof (script_stalled_below_expected rounds expected ∅ 0 Hexit Hknown) as Hlt.
    rewrite bool_decide_eq_true_2 by done. simpl.
    apply negb_true_iff, Z.eqb_neq. subst r. lia.
  - intros Hexit.
    destruct (script_exit_cases rounds expected ∅ 0) as [(_ & Hknown & Hle)
      | [(Hs & _) | (Hc & _)]]; subst r; [|congruence..].
    rewrite bool_decide_eq_true_2 by done. simpl.
    rewrite negb_true_iff, Z.eqb_neq. lia.
Qed.

Lemma script_main_report_witness :
  Script.warning
    <$> Script.main (Sample.list_page [Sample.h2 "1 words"]
                       [Sample.item "c" "a" "one"; Sample.item "c" "b" "two"])
          [Sample.shows (Sample.list_page [Sample.h2 "1 words"]
                           [Sample.item "c" "a" "one"; Sample.item "c" "b" "two"]) true]
  = Some true.
Proof.
  destruct (Script.main _ _) as [rep|] eqn:Hm; [|by vm_compute in Hm].
  simpl. f_equal.
  pose proof Hm as Hrep. vm_compute in Hrep. injection Hrep as <-.
  refine (proj2 (proj2 (proj2 (proj2 (script_main_report _ _ _ Hm))) _) _);
    by vm_compute.
Defined.

(** ** Reading the expected total, further *)








Lemma take_while_no_comma s :
  Text.all_chars Text.not_comma s = true →
  Py.take_while Py.isdigit_or_comma s = Py.take_while Py.isdigit s.
Proof.
  induction s as [|a s IH]; simpl; [done|].
  intros [Ha Hs]%andb_true_iff. unfold Py.isdigit_or_comma at 1.
  unfold Text.not_comma in Ha. apply negb_true_iff in Ha. rewrite Ha, orb_false_r.
  destruct (Py.isdigit a); [|done]. by rewrite IH.
Qed.

Lemma remove_commas_no_comma s :
  Text.all_chars Text.not_comma s = true → Py.remove_commas s = s.
Proof.
  induction s as [|a s IH]; simpl; [done|].
  intros [Ha Hs]%andb_true_iff.
  unfold Text.not_comma in Ha. apply negb_true_iff in Ha. rewrite Ha.
  by rewrite IH.
Qed.

Lemma no_comma_take_while f s :
  Text.all_chars Text.not_comma s = true →
  Text.all_chars Text.not_comma (Py.take_while f s) = true.
Proof.
  induction s as [|a s IH]; simpl; [done|].
  intros [Ha Hs]%andb_true_iff. destruct (f a); simpl; [|done].
  by rewrite Ha, IH.
Qed.

Lemma parse_expected_count_no_comma text :
  Text.all_chars Text.not_comma text = true →
  Script.parse_expected_count text = from_option Py.int (-1) (Py.search_digits text).
Proof.
  unfold Script.parse_expected_count.
  induction text as [|a s IH]; simpl; [done|].
  intros [Ha Hs]%andb_true_iff.
  destruct (Py.isdigit a) eqn:Hd; [|by apply IH]. simpl.
  rewrite (take_while_no_comma _ Hs). f_equal.
  unfold Text.not_comma in Ha. apply negb_true_iff in Ha. simpl. rewrite Ha.
  f_equal. apply remove_commas_no_comma. by apply no_comma_take_while.
Qed.

Lemma contains_nonempty p s :
  Py.contains (String p.1 p.2) s = true → Py.is_empty s = false.
Proof. by destruct s. Qed.

Lemma lower_is_empty s : Py.is_empty (Py.lower s) = Py.is_empty s.
Proof. by destruct s. Qed.

(** X8.  On a heading without a comma that has the text [word], the reader of
    the scraping module and the parser of the script read the same number,
    and the reader raises exactly when the parser answers [-1]. *)
Theorem readers_agree_without_comma (h : node) :
  Text.all_chars Text.not_comma (text_content h) = true →
  Py.contains "word" (Py.lower (text_content h)) = true →
  Scraper.expected_from_headers [h]
  = if Py.has_digit (text_content h)
    then Some (Script.parse_expected_count (text_content h)) else None.
Proof.
  intros Hc Hw. simpl.
  assert (Py.is_empty (text_content h) = false) as ->.
  { rewrite <- lower_is_empty.
    by apply (contains_nonempty ("w"%char, "ord")). }
  rewrite Hw, (parse_expected_count_no_comma _ Hc).
  destruct (Py.has_digit (text_content h)) eqn:Hd.
  - destruct (Py.search_digits (text_content h)) as [g|] eqn:Hg; [done|].
    exfalso. clear -Hd Hg. induction (text_content h) as [|a s IH]; [done|].
    simpl in *. destruct (Py.isdigit a); [done|]. auto.
  - by rewrite search_digits_no_digit.
Qed.

Lemma readers_agree_without_comma_witness :
  Scraper.expected_from_headers [Sample.h2 "427 words"] = Some 427.
Proof. by apply (readers_agree_without_comma (Sample.h2 "427 words")). Defined.







(** ** What the extractors return *)

Lemma rstrip_idemp s : Py.rstrip (Py.rstrip s) = Py.rstrip s.
Proof.
  induction s as [|a s IH]; simpl; [done|].
  destruct (Py.isspace a && Py.is_empty (Py.rstrip s)) eqn:Hc; [done|].
  simpl. by rewrite IH, Hc.
Qed.

Lemma lstrip_head s :
  match Py.lstrip s with
  | EmptyString => True
  | String a _ => Py.isspace a = false
  end.
Proof.
  induction s as [|a s IH]; simpl; [done|].
  destruct (Py.isspace a) eqn:Ha; [exact IH | exact Ha].
Qed.

Lemma lstrip_rstrip_head s :
  match s with
  | EmptyString => True
  | String a _ => Py.isspace a = false
  end →
  Py.lstrip (Py.rstrip s) = Py.rstrip s.
Proof.
  destruct s as [|a s]; simpl; [done|]. intros Ha. rewrite Ha. simpl.
  by rewrite Ha.
Qed.

Lemma strip_idemp s : Py.strip (Py.strip s) = Py.strip s.
Proof.
  unfold Py.strip. rewrite (lstrip_rstrip_head _ (lstrip_head s)).
  apply rstrip_idemp.
Qed.

Lemma nonempty_ne s : nonempty s = true → s ≠ EmptyString.
Proof. by destruct s. Qed.

Lemma pair_of_item_clean li w t :
  Script.pair_of_item li = Some (w, t) →
  w ≠ EmptyString ∧ t ≠ EmptyString ∧ Text.trimmed w ∧ Text.trimmed t.
Proof.
  unfold Script.pair_of_item.
  destruct (first_text "h3" li) as [h3|]; [|done]. simpl.
  destruct (first_text "p" li) as [p|]; [|done]. simpl.
  destruct (nonempty (Py.strip h3) && nonempty (Py.strip p)) eqn:Hne; [|done].
  apply andb_true_iff in Hne as [Hw Ht]. intros [= <- <-].
  split_and!; [by apply nonempty_ne.. | apply strip_idemp | apply strip_idemp].
Qed.

Lemma scrape_item_clean words container words' :
  Scraper.scrape_item words container = Some words' →
  map_Forall (λ k v, k ≠ EmptyString ∧ v ≠ EmptyString
                     ∧ Text.trimmed k ∧ Text.trimmed v) words →
  map_Forall (λ k v, k ≠ EmptyString ∧ v ≠ EmptyString
                     ∧ Text.trimmed k ∧ Text.trimmed v) words'.
Proof.
  unfold Scraper.scrape_item.
  destruct (first_text "h3" container) as [h3|]; [|done]. simpl.
  destruct (first_text "p" container) as [p|]; [|done]. simpl.
  destruct (Py.is_empty h3 || Py.is_empty p); [by intros [= <-]|].
  destruct (nonempty (Py.strip h3) && nonempty (Py.strip p)) eqn:Hne;
    [|by intros [= <-]].
  apply andb_true_iff in Hne as [Hw Ht]. intros [= <-] Hall.
  apply map_Forall_insert_2; [|done].
  split_and!; [by apply nonempty_ne.. | apply strip_idemp | apply strip_idemp].
Qed.

(** X10.  Every pair that an extractor returns has two terms that are not empty
    and carry no white space at either end: the pairs of the script's set,
    and the keys and values of the scraping module's dict. *)
Theorem extracted_terms_clean (page : node) :
  (∀ w t, (w, t) ∈ Script.extract_visible_words page →
          w ≠ EmptyString ∧ t ≠ EmptyString ∧ Text.trimmed w ∧ Text.trimmed t)
  ∧ (∀ words, Scraper._scrape_visible_words page = Some words →
       ∀ k v, words !! k = Some v →
              k ≠ EmptyString ∧ v ≠ EmptyString ∧ Text.trimmed k ∧ Text.trimmed v).
Proof.
  split.
  - intros w t (li & _ & Hp)%elem_of_extract_visible_words.
    by eapply pair_of_item_clean.
  - unfold Scraper._scrape_visible_words.
    assert (∀ l acc words,
      foldl (λ acc container, words ← acc; Scraper.scrape_item words container)
            acc l = Some words →
      (∀ a, acc = Some a →
            map_Forall (λ k v, k ≠ EmptyString ∧ v ≠ EmptyString
                               ∧ Text.trimmed k ∧ Text.trimmed v) a) →
      map_Forall (λ k v, k ≠ EmptyString ∧ v ≠ EmptyString
                         ∧ Text.trimmed k ∧ Text.trimmed v) words) as Hfold.
    { induction l as [|c l IH]; intros acc words Hf Hacc; simpl in Hf.
      - by apply Hacc.
      - eapply IH; [exact Hf|]. intros a Ha.
        destruct acc as [a0|]; [|done]. simpl in Ha.
        eapply scrape_item_clean; [exact Ha|]. by apply Hacc. }
    intros words Hw k v Hkv.
    eapply (Hfold _ _ _ Hw); [|exact Hkv].
    intros a [= <-]. apply map_Forall_empty.
Qed.

Lemma extracted_terms_clean_witness :
  Text.trimmed "a" ∧ Text.trimmed "one".
Proof.
  destruct (proj1 (extracted_terms_clean
    (Sample.list_page [] [Sample.item "c" "  a " " one"])) "a" "one") as (_ & _ & H);
    [by vm_compute | exact H].
Defined.

(** X11.  [_scrape_visible_words] raises exactly when some container of its XPath
    has no [h3] or no [p] below it. *)
Theorem scrape_raises_on_incomplete_container (page : node) :
  Scraper._scrape_visible_words page = None
  ↔ Exists (λ c, first_text "h3" c = None ∨ first_text "p" c = None)
           (Scraper.item_locator page).
Proof.
  unfold Scraper._scrape_visible_words.
  assert (∀ c words, Scraper.scrape_item words c = None
                     ↔ first_text "h3" c = None ∨ first_text "p" c = None) as Hitem.
  { intros c words. unfold Scraper.scrape_item.
    destruct (first_text "h3" c) as [h3|]; simpl; [|by split; [left|]].
    destruct (first_text "p" c) as [p|]; simpl; [|by split; [right|]].
    destruct (Py.is_empty h3 || Py.is_empty p);
      [|destruct (nonempty (Py.strip h3) && nonempty (Py.strip p))];
      split; (done || by intros [?|?]). }
  assert (∀ l, foldl (λ acc container, words ← acc; Scraper.scrape_item words container)
                 None l = None) as Hnone.
  { induction l as [|c l IH]; [done|]. exact IH. }
  generalize (∅ : gmap string string).
  induction (Scraper.item_locator page) as [|c l IH]; intros words; simpl.
  { split; [done|]. by intros ?%Exists_nil. }
  rewrite Exists_cons.
  destruct (Scraper.scrape_item words c) as [words'|] eqn:Hc.
  - rewrite IH. split; [by right|].
    intros [Hbad|Hl]; [|done]. apply Hitem with (words := words) in Hbad. congruence.
  - rewrite Hnone. split; [|done]. intros _. left. by apply (Hitem c words).
Qed.

(** ** The reveal-more drivers *)

Section ScriptDriver.

Import Reveal.

Lemma try_first_spec t s otherwise :
  (works s ∧ try_first t s otherwise = ([Click t; Wait 1200], true))
  ∨ (¬ works s
     ∧ (try_first t s otherwise).2 = otherwise.2
     ∧ filter (λ a, is_click a = true) (try_first t s otherwise).1
       = filter (λ a, is_click a = true) otherwise.1).
Proof.
  unfold try_first, works.
  destruct (visible s) as [[|]|]; [|right; split; [by intros [? _]|done]..].
  destruct (clickable s).
  - by left.
  - right. split; [by intros [_ ?]|]. done.
Qed.

Lemma try_counted_spec t s otherwise :
  (counted_works s ∧ try_counted t s otherwise = ([Click t; Wait 1200], true))
  ∨ (¬ counted_works s
     ∧ (try_counted t s otherwise).2 = otherwise.2
     ∧ filter (λ a, is_click a = true) (try_counted t s otherwise).1
       = filter (λ a, is_click a = true) otherwise.1).
Proof.
  unfold try_counted, counted_works.
  destruct (count s) as [n|]; [|right; split; [by intros [(? & ? & _) _]|done]].
  case_bool_decide as Hn.
  - destruct (try_first_spec t s otherwise) as [[Hw Heq] | (Hw & H2 & H3)].
    + left. split; [|done]. split; [by exists n | done].
    + right. split; [by intros [_ ?]|done].
  - right. split; [|done]. intros [(m & [= <-] & Hm) _]. done.
Qed.

Lemma selectors_spec (v : view) sels otherwise :
  let r := foldr (λ sel rest, try_first (BySelector sel) (by_selector v sel) rest)
                 otherwise sels in
  (Exists (λ sel, works (by_selector v sel)) sels
   ∧ r.2 = true
   ∧ ∃ sel, filter (λ a, is_click a = true) r.1 = [Click (BySelector sel)])
  ∨ (¬ Exists (λ sel, works (by_selector v sel)) sels
     ∧ r.2 = otherwise.2
     ∧ filter (λ a, is_click a = true) r.1
       = filter (λ a, is_click a = true) otherwise.1).
Proof.
  induction sels as [|sel sels IH]; simpl.
  { right. split; [by intros ?%Exists_nil | done]. }
  destruct (try_first_spec (BySelector sel) (by_selector v sel)
    (foldr (λ sel rest, try_first (BySelector sel) (by_selector v sel) rest)
           otherwise sels)) as [[Hw ->] | (Hw & -> & ->)].
  - left. split_and!; [by left | done | by exists sel].
  - destruct IH as [(Hex & H2 & H3) | (Hex & H2 & H3)].
    + left. split_and!; [by right | done | done].
    + right. split_and!; [|done..]. by intros [?|?]%Exists_cons.
Qed.

(** X12.  [click_more_if_possible] returns [True] exactly when one of its
    strategies finds a first element that is visible and whose click goes
    through: the button named by role, one of the five button selectors, or
    the text in the words section.  A strategy whose probe or click raises
    is passed over and does not keep the later ones from being tried. *)
Theorem click_more_succeeds_iff (v : view) :
  (click_more_if_possible v).2 = true
  ↔ counted_works (by_role v)
    ∨ Exists (λ sel, works (by_selector v sel)) selector_variants
    ∨ counted_works (by_text v).
Proof.
  unfold click_more_if_possible. cbn [snd].
  destruct (try_counted_spec ByRole (by_role v)
    (foldr (λ sel rest, try_first (BySelector sel) (by_selector v sel) rest)
           (try_counted ByText (by_text v) ([], false)) selector_variants))
    as [[Hw ->] | (Hw & -> & _)]; [by split; [left|]|].
  destruct (selectors_spec v selector_variants
    (try_counted ByText (by_text v) ([], false)))
    as [(Hex & -> & _) | (Hex & -> & _)]; [by split; [right; left|]|].
  destruct (try_counted_spec ByText (by_text v) ([], false))
    as [[Ht ->] | (Ht & -> & _)]; [by split; [right; right|]|].
  simpl. split; [done|]. tauto.
Qed.

(** X13.  [click_more_if_possible] starts with the scroll and the wait of 750 ms.
    When it returns [True] exactly one click went through, and that click
    and the wait of 1200 ms end the call; when it returns [False] no click
    went through. *)
Theorem click_more_clicks_once (v : view) :
  (∃ rest, (click_more_if_possible v).1 = Scroll :: Wait 750 :: rest)
  ∧ (if (click_more_if_possible v).2
     then ∃ pre t,
            (click_more_if_possible v).1 = pre ++ [Click t; Wait 1200]
            ∧ filter (λ a, is_click a = true) pre = []
     else filter (λ a, is_click a = true) (click_more_if_possible v).1 = []).
Proof.
  split; [by eexists|].
  unfold click_more_if_possible. cbn [fst snd].
  assert (∀ (r : list action * bool),
    (if r.2 then ∃ pre t, r.1 = pre ++ [Click t; Wait 1200]
                          ∧ filter (λ a, is_click a = true) pre = []
     else filter (λ a, is_click a = true) r.1 = []) →
    if r.2 then ∃ pre t, Scroll :: Wait 750 :: r.1 = pre ++ [Click t; Wait 1200]
                         ∧ filter (λ a, is_click a = true) pre = []
    else filter (λ a, is_click a = true) (Scroll :: Wait 750 :: r.1) = []) as Hwrap.
  { intros [acts [|]]; simpl; [|done].
    intros (pre & t & -> & Hpre). exists (Scroll :: Wait 750 :: pre), t.
    split; [done|]. exact Hpre. }
  apply Hwrap. clear Hwrap.
  assert (∀ t s (o : list action * bool),
    (if o.2 then ∃ pre t', o.1 = pre ++ [Click t'; Wait 1200]
                           ∧ filter (λ a, is_click a = true) pre = []
     else filter (λ a, is_click a = true) o.1 = []) →
    if (try_first t s o).2
    then ∃ pre t', (try_first t s o).1 = pre ++ [Click t'; Wait 1200]
                   ∧ filter (λ a, is_click a = true) pre = []
    else filter (λ a, is_click a = true) (try_first t s o).1 = []) as Hfirst.
  { intros t s [acts b] Ho. unfold try_first.
    destruct (visible s) as [[|]|]; [|done..].
    destruct (clickable s); simpl.
    - by exists [], t.
    - simpl in Ho. destruct b; [|done].
      destruct Ho as (pre & t' & -> & Hpre).
      exists (ClickRaised t :: pre), t'. split; [done|]. exact Hpre. }
  assert (∀ t s (o : list action * bool),
    (if o.2 then ∃ pre t', o.1 = pre ++ [Click t'; Wait 1200]
                           ∧ filter (λ a, is_click a = true) pre = []
     else filter (λ a, is_click a = true) o.1 = []) →
    if (try_counted t s o).2
    then ∃ pre t', (try_counted t s o).1 = pre ++ [Click t'; Wait 1200]
                   ∧ filter (λ a, is_click a = true) pre = []
    else filter (λ a, is_click a = true) (try_counted t s o).1 = []) as Hcounted.
  { intros t s o Ho. unfold try_counted.
    destruct (count s) as [n|]; [|done]. case_bool_decide; [|done].
    by apply Hfirst. }
  apply Hcounted.
  induction selector_variants as [|sel sels IH]; simpl.
  - by apply Hcounted.
  - by apply Hfirst.
Qed.

End ScriptDriver.

Section ScraperDriver.

Import Reveal.

Lemma click_by_text_find i bs :
  click_by_text i bs
  = match list_find (λ b, says_more b = true) bs with
    | None => ([], Some false)
    | Some (j, b) =>
        if click_ok b then ([Click (ByIndex (i + j)); Wait 2000], Some true)
        else ([ClickRaised (ByIndex (i + j))], None)
    end.
Proof.
  revert i. induction bs as [|b bs IH]; intros i; [done|].
  cbn [click_by_text list_find]. case_decide as Hb.
  - rewrite Hb. by rewrite Nat.add_0_r.
  - apply not_true_is_false in Hb. rewrite Hb, IH.
    destruct (list_find _ bs) as [[j b']|]; simpl; [|done].
    by rewrite Nat.add_succ_r.
Qed.

(** X14.  [_click_more_if_available] clicks the first button named by role when
    there is one and it is enabled; otherwise it clicks the first button,
    in document order, whose text has the word [more] in any case, and
    answers [False] when there is none.  A click that raises is not caught:
    it ends the call with that exception. *)
Theorem click_more_if_available_target (v : page_buttons) :
  _click_more_if_available v
  = if bool_decide (0 < role_count v)%nat && role_first_enabled v then
      if role_first_click_ok v
      then ([Scroll; Wait 1000; Click ByRole; Wait 2000], Some true)
      else ([Scroll; Wait 1000; ClickRaised ByRole], None)
    else
      match list_find (λ b, says_more b = true) (buttons v) with
      | None => ([Scroll; Wait 1000], Some false)
      | Some (j, b) =>
          if click_ok b
          then ([Scroll; Wait 1000; Click (ByIndex j); Wait 2000], Some true)
          else ([Scroll; Wait 1000; ClickRaised (ByIndex j)], None)
      end.
Proof.
  unfold _click_more_if_available.
  destruct (bool_decide (0 < role_count v)%nat && role_first_enabled v).
  - by destruct (role_first_click_ok v).
  - rewrite click_by_text_find.
    destruct (list_find _ (buttons v)) as [[j b]|]; [|done].
    by destruct (click_ok b).
Qed.

End ScraperDriver.

(** ** The lines of the script's output file *)

Section JsonLines.

Import Json.

Lemma count_char_app c s1 s2 :
  Text.count_char c (s1 +:+ s2) = (Text.count_char c s1 + Text.count_char c s2)%nat.
Proof.
  induction s1 as [|a s1 IH]; [done|].
  change (String a s1 +:+ s2) with (String a (s1 +:+ s2)).
  simpl. rewrite IH. lia.
Qed.

Lemma escape_char_no_newline a : Text.count_char newline (escape_char a) = 0%nat.
Proof. destruct a as [[] [] [] [] [] [] [] []]; reflexivity. Qed.

Lemma escape_no_newline s : Text.count_char newline (escape s) = 0%nat.
Proof.
  induction s as [|a s IH]; [done|].
  simpl. by rewrite count_char_app, escape_char_no_newline, IH.
Qed.

Lemma encode_string_no_newline s : Text.count_char newline (encode_string s) = 0%nat.
Proof.
  unfold encode_string.
  change (String quote (escape s +:+ String quote EmptyString))
    with (String quote EmptyString +:+ (escape s +:+ String quote EmptyString)).
  by rewrite !count_char_app, escape_no_newline.
Qed.

Lemma dumps_no_newline j : Text.count_char newline (dumps j) = 0%nat.
Proof.
  unfold dumps. by rewrite !count_char_app, !encode_string_no_newline.
Qed.

Lemma file_text_newlines lines :
  Text.count_char newline (file_text lines) = length lines.
Proof.
  induction lines as [|j lines IH]; [done|].
  cbn [file_text length]. rewrite count_char_app, dumps_no_newline.
  simpl. by rewrite IH.
Qed.

(** X15.  The output file of the script has one line for every pair collected: the
    text written holds as many line feeds as the accumulator holds pairs,
    whatever characters the terms are made of. *)
Theorem output_file_one_line_per_pair (collected : gset (string * string)) :
  Text.count_char newline (write_file collected) = size collected.
Proof.
  unfold write_file. rewrite file_text_newlines.
  unfold Script.write_output. rewrite length_fmap.
  unfold Py.sorted. by rewrite merge_sort_Permutation.
Qed.

Lemma read_string_escape_char a tail :
  read_string (escape_char a +:+ tail) = prepend a (read_string tail).
Proof. destruct a as [[] [] [] [] [] [] [] []]; reflexivity. Qed.

Lemma app_assoc_string s1 s2 s3 : (s1 +:+ s2) +:+ s3 = s1 +:+ (s2 +:+ s3).
Proof.
  induction s1 as [|a s1 IH]; [done|].
  change (String a s1 +:+ s2) with (String a (s1 +:+ s2)).
  change (String a (s1 +:+ s2) +:+ s3) with (String a ((s1 +:+ s2) +:+ s3)).
  change (String a s1 +:+ (s2 +:+ s3)) with (String a (s1 +:+ (s2 +:+ s3))).
  by rewrite IH.
Qed.

Lemma read_string_escape s tail :
  read_string (escape s +:+ String quote tail) = Some (s, tail).
Proof.
  induction s as [|a s IH]; [done|].
  cbn [escape]. by rewrite app_assoc_string, read_string_escape_char, IH.
Qed.

Lemma after_prefix_app p s : after_prefix p (p +:+ s) = Some s.
Proof.
  induction p as [|a p IH]; [by destruct s|].
  change (String a p +:+ s) with (String a (p +:+ s)).
  simpl. by rewrite bool_decide_eq_true_2.
Qed.

Lemma dumps_shape w t :
  dumps {| Script.word := w; Script.translation := t |}
  = ("{" +:+ encode_string "word" +:+ ": " +:+ String quote EmptyString)
    +:+ (escape w
         +:+ String quote
               ((", " +:+ encode_string "translation" +:+ ": "
                 +:+ String quote EmptyString)
                +:+ (escape t +:+ String quote "}"))).
Proof.
  unfold dumps, encode_string. cbn [Script.word Script.translation].
  change (String quote (escape w +:+ String quote EmptyString) +:+ ?r)
    with (String quote ((escape w +:+ String quote EmptyString) +:+ r)).
  change (String quote (escape t +:+ String quote EmptyString) +:+ ?r)
    with (String quote ((escape t +:+ String quote EmptyString) +:+ r)).
  rewrite (app_assoc_string (escape w)), (app_assoc_string (escape t)).
  reflexivity.
Qed.

Lemma loads_dumps j : loads (dumps j) = Some j.
Proof.
  destruct j as [w t]. rewrite dumps_shape. unfold loads.
  rewrite after_prefix_app. unfold mbind at 1, option_bind at 1. cbv beta iota.
  rewrite read_string_escape. unfold mbind at 1, option_bind at 1. cbv beta iota.
  rewrite after_prefix_app. unfold mbind at 1, option_bind at 1. cbv beta iota.
  rewrite read_string_escape. unfold mbind at 1, option_bind at 1. cbv beta iota.
  done.
Qed.

Lemma dumps_inj j1 j2 : dumps j1 = dumps j2 → j1 = j2.
Proof.
  intros H. apply (f_equal loads) in H. rewrite !loads_dumps in H. by simplify_eq.
Qed.

Lemma read_line_dumps j rest :
  read_line (dumps j +:+ String newline rest) = Some (dumps j, rest).
Proof.
  pose proof (dumps_no_newline j) as Hn. revert Hn.
  generalize (dumps j). intros s. induction s as [|a s IH]; [done|].
  change (String a s +:+ String newline rest)
    with (String a (s +:+ String newline rest)).
  simpl. case_bool_decide as Ha; [done|]. intros Hn.
  by rewrite IH.
Qed.

Lemma file_text_inj lines1 lines2 :
  file_text lines1 = file_text lines2 → lines1 = lines2.
Proof.
  revert lines2. induction lines1 as [|j1 lines1 IH]; intros [|j2 lines2] H.
  - done.
  - apply (f_equal read_line) in H. cbn [file_text] in H.
    by rewrite read_line_dumps in H.
  - apply (f_equal read_line) in H. cbn [file_text] in H.
    by rewrite read_line_dumps in H.
  - apply (f_equal read_line) in H. cbn [file_text] in H.
    rewrite !read_line_dumps in H.
    apply (inj Some), pair_equal_spec in H as [Hj Hl].
    f_equal; [by apply dumps_inj | by apply IH].
Qed.

(** X16.  The output file loses nothing: two accumulators that give the same
    file text hold the same pairs. *)
Theorem output_file_determines_pairs (c1 c2 : gset (string * string)) :
  write_file c1 = write_file c2 → c1 = c2.
Proof.
  unfold write_file. intros H%file_text_inj.
  unfold Script.write_output in H.
  apply (f_equal (fmap Script.pair_of)) in H.
  rewrite <- !list_fmap_compose in H.
  assert (∀ l : list (string * string),
    (Script.pair_of ∘ (λ wt : string * string,
       {| Script.word := wt.1; Script.translation := wt.2 |})) <$> l = l) as Hid.
  { intros l. rewrite <- (list_fmap_id l) at 2.
    apply list_fmap_ext. by intros _ [w t] _. }
  rewrite !Hid in H.
  apply set_eq. intros x. rewrite <- !elem_of_elements.
  assert (elements c1 ≡ₚ elements c2) as Hp.
  { unfold Py.sorted in H.
    rewrite <- (merge_sort_Permutation Py.tuple_le (elements c1)).
    rewrite <- (merge_sort_Permutation Py.tuple_le (elements c2)).
    by rewrite H. }
  by rewrite Hp.
Qed.

Lemma output_file_determines_pairs_witness :
  ({[ ("a", "one") ]} : gset (string * string)) = {[ ("a", "one") ]}.
Proof. by apply output_file_determines_pairs. Defined.

End JsonLines.

(** ** The flat file of the scraping module, read back *)

Lemma read_rows_save (words : gmap string string) :
  StoreSpec.read_rows (Scraper.save_words_to_file words) = Some words.
Proof.
  unfold Scraper.save_words_to_file, StoreSpec.read_rows.
  rewrite bool_decide_eq_true_2 by done.
  assert (∀ l, mapM StoreSpec.pair_of_row (Scraper.row_of <$> l) = Some l) as ->.
  { intros l. apply mapM_Some. induction l as [|[t e] l IH]; constructor; done. }
  simpl. f_equal.
  rewrite <- (list_to_map_to_list words) at 2.
  apply list_to_map_proper.
  - unfold Py.sorted. rewrite merge_sort_Permutation. apply NoDup_fst_map_to_list.
  - unfold Py.sorted. apply merge_sort_Permutation.
Qed.

(** X17.  The rows that [save_words_to_file] writes give the dict back: the
    header row first, then one row of two fields for every entry, and the
    rows read as a dict are the dict that was saved. *)
Theorem saved_rows_read_back (words : gmap string string) :
  StoreSpec.read_rows (Scraper.save_words_to_file words) = Some words
  ∧ head (Scraper.save_words_to_file words) = Some Scraper.header
  ∧ length (Scraper.save_words_to_file words) = S (size words).
Proof.
  split_and!.
  - apply read_rows_save.
  - done.
  - unfold Scraper.save_words_to_file. rewrite length_cons, length_fmap.
    unfold Py.sorted. by rewrite merge_sort_Permutation, length_map_to_list.
Qed.

(** ** The store without failures *)

Section StoreRuns.

Import Scraper StoreSpec.

Lemma head_filter_None {A} (P : A → Prop) `{∀ x, Decision (P x)} (l : list A) :
  head (filter P l) = None ↔ ¬ Exists P l.
Proof.
  induction l as [|x l IH]; simpl.
  { split; [by intros _ ?%Exists_nil | done]. }
  rewrite filter_cons. destruct (decide (P x)) as [Hx|Hx]; simpl.
  - split; [done|]. intros Hn. destruct Hn. by left.
  - rewrite IH. split.
    + intros Hn [?|?]%Exists_cons; tauto.
    + intros Hn Hl. apply Hn. by right.
Qed.

Lemma query_term_ok lid english target s :
  ∃ s',
    query_term never_fails lid english target s
    = (s', Some (head (filter (records lid (target, english))
                              (terms (committed s)))))
    ∧ committed s' = committed s ∧ new_languages s' = new_languages s
    ∧ new_terms s' = new_terms s ∧ commits s' = commits s
    ∧ closed s' = closed s.
Proof. by eexists. Qed.

Lemma add_term_ok t s :
  ∃ s',
    add_term never_fails t s = (s', Some ())
    ∧ committed s' = committed s ∧ new_languages s' = new_languages s
    ∧ new_terms s' = new_terms s ++ [t] ∧ commits s' = commits s
    ∧ closed s' = closed s.
Proof. by eexists. Qed.

Lemma query_language_ok c s :
  ∃ s',
    query_language never_fails c s
    = (s', Some (head (filter (λ l, lang_code l = c) (languages (committed s)))))
    ∧ committed s' = committed s ∧ new_languages s' = new_languages s
    ∧ new_terms s' = new_terms s ∧ commits s' = commits s
    ∧ closed s' = closed s.
Proof. by eexists. Qed.

Lemma add_language_ok c n s :
  ∃ s',
    add_language never_fails c n s = (s', Some ())
    ∧ committed s' = committed s
    ∧ new_languages s' = new_languages s ++ [(c, n)]
    ∧ new_terms s' = new_terms s ∧ commits s' = commits s
    ∧ closed s' = closed s.
Proof. by eexists. Qed.

Lemma commit_ok s :
  ∃ s',
    commit never_fails s = (s', Some ())
    ∧ committed s'
      = {| languages := insert_languages (languages (committed s)) (new_languages s);
           terms := terms (committed s) ++ new_terms s |}
    ∧ new_languages s' = [] ∧ new_terms s' = []
    ∧ commits s' = S (commits s) ∧ closed s' = closed s.
Proof. by eexists. Qed.

Lemma refresh_ok c s l :
  last (filter (λ l, lang_code l = c) (languages (committed s))) = Some l →
  ∃ s',
    refresh never_fails c s = (s', Some l)
    ∧ committed s' = committed s ∧ new_languages s' = new_languages s
    ∧ new_terms s' = new_terms s ∧ commits s' = commits s
    ∧ closed s' = closed s.
Proof.
  intros Hl. unfold refresh, call, never_fails. cbn [committed].
  rewrite Hl. by eexists.
Qed.

Lemma insert_terms_ok lid items added skipped s :
  let miss := missing lid (terms (committed s)) items in
  ∃ s',
    insert_terms never_fails lid items added skipped s
    = (s', Some (added + Z.of_nat (length miss),
                 skipped + Z.of_nat (length items) - Z.of_nat (length miss)))
    ∧ committed s' = committed s
    ∧ new_languages s' = new_languages s
    ∧ new_terms s' = new_terms s ++ (term_of lid <$> miss)
    ∧ commits s' = commits s
    ∧ closed s' = closed s.
Proof.
  revert added skipped s.
  induction items as [|[target english] items IH]; intros added skipped s miss.
  { subst miss. unfold missing. rewrite filter_nil. exists s. simpl.
    rewrite app_nil_r. split_and!; try done. unfold mret, M_ret.
    do 3 f_equal; lia. }
  subst miss. unfold missing. rewrite filter_cons.
  cbn [insert_terms]. unfold mbind, M_bind.
  destruct (query_term_ok lid english target s)
    as (s1 & -> & Hc1 & Hl1 & Ht1 & Hn1 & Hd1).
  destruct (decide (¬ Exists (records lid (target, english)) (terms (committed s))))
    as [Hmiss|Hthere].
  - apply (head_filter_None (records lid (target, english))) in Hmiss.
    rewrite Hmiss.
    destruct (add_term_ok (new_term lid english target) s1)
      as (s2 & -> & Hc2 & Hl2 & Ht2 & Hn2 & Hd2).
    destruct (IH (added + 1) skipped s2) as (s' & Heq & Hc & Hl & Ht & Hn & Hd).
    exists s'. rewrite Heq. rewrite Hc2, Hc1 in *.
    split_and!; try congruence.
    + do 3 f_equal; rewrite !length_cons; unfold missing; lia.
    + rewrite Ht, Ht2, Ht1. rewrite <- app_assoc. done.
  - destruct (head _) as [existing|] eqn:Hhead.
    2:{ apply (head_filter_None (records lid (target, english))) in Hhead. done. }
    destruct (IH added (skipped + 1) s1) as (s' & Heq & Hc & Hl & Ht & Hn & Hd).
    exists s'. rewrite Heq. rewrite Hc1 in *.
    split_and!; try congruence.
    + do 3 f_equal; rewrite ?length_cons; unfold missing; lia.
    + by rewrite Ht, Ht1.
Qed.

Lemma ensure_language_ok s :
  new_languages s = [] → new_terms s = [] →
  ∃ s' lang,
    ensure_language never_fails s = (s', Some lang)
    ∧ lang_id lang = arabic_id (languages (committed s))
    ∧ languages (committed s') = with_arabic (languages (committed s))
    ∧ terms (committed s') = terms (committed s)
    ∧ new_languages s' = [] ∧ new_terms s' = []
    ∧ closed s' = closed s.
Proof.
  intros Hl0 Ht0. unfold ensure_language, mbind, M_bind.
  destruct (query_language_ok "ar" s) as (s1 & -> & Hc1 & Hl1 & Ht1 & Hn1 & Hd1).
  unfold with_arabic, arabic_id, arabic_rows.
  destruct (filter (λ l, lang_code l = "ar") (languages (committed s)))
    as [|l ls] eqn:Hrows; cbn [head].
  - destruct (add_language_ok "ar" "Arabic" s1)
      as (s2 & -> & Hc2 & Hl2 & Ht2 & Hn2 & Hd2).
    destruct (commit_ok s2) as (s3 & -> & Hc3 & Hl3 & Ht3 & Hn3 & Hd3).
    rewrite Hc2, Hc1, Hl2, Hl1, Hl0, Ht2, Ht1, Ht0, app_nil_r in Hc3.
    cbn [app insert_languages] in Hc3.
    destruct (refresh_ok "ar" s3
      {| lang_id := next_id (languages (committed s)); lang_code := "ar";
         lang_name := "Arabic" |}) as (s4 & -> & Hc4 & Hl4 & Ht4 & Hn4 & Hd4).
    { rewrite Hc3. cbn [languages]. rewrite filter_app, Hrows. done. }
    eexists s4, _. split; [done|]. rewrite Hc4, Hc3. cbn [languages terms lang_id].
    split_and!; congruence.
  - exists s1, l. split; [done|]. rewrite Hc1. split_and!; congruence.
Qed.

Lemma filter_none {A} (P : A → Prop) `{∀ x, Decision (P x)} (l : list A) :
  Forall (λ x, ¬ P x) l → filter P l = [].
Proof.
  induction 1 as [|x l Hx _ IH]; [done|].
  rewrite filter_cons. by destruct (decide (P x)).
Qed.

Lemma missing_after_insert lid ts items :
  missing lid (ts ++ (term_of lid <$> missing lid ts items)) items = [].
Proof.
  unfold missing at 1. apply filter_none, Forall_forall. intros te Hte Hno.
  apply Hno. apply Exists_app.
  destruct (decide (Exists (records lid te) ts)) as [Hin|Hout]; [by left|].
  right. apply Exists_exists. exists (term_of lid te). split; [|done].
  apply list_elem_of_fmap_2. unfold missing. by apply list_elem_of_filter.
Qed.

Lemma with_arabic_once ls :
  with_arabic (with_arabic ls) = with_arabic ls
  ∧ arabic_id (with_arabic ls) = arabic_id ls.
Proof.
  unfold with_arabic, arabic_id, arabic_rows.
  destruct (filter (λ l, lang_code l = "ar") ls) as [|l rows] eqn:Hrows.
  - rewrite filter_app, Hrows. done.
  - rewrite Hrows. done.
Qed.

Lemma store_run_ok (url : string) (db : store) (words : gmap string string) :
  url ≠ EmptyString →
  let out := save_words_to_database never_fails (Some url) db words in
  let lid := arabic_id (languages db) in
  let miss := missing lid (terms db) (map_to_list words) in
  out.2 = Some (Z.of_nat (length miss),
                Z.of_nat (size words) - Z.of_nat (length miss))
  ∧ languages (committed out.1) = with_arabic (languages db)
  ∧ terms (committed out.1) = terms db ++ (term_of lid <$> miss)
  ∧ closed out.1 = true.
Proof.
  intros Hurl. unfold save_words_to_database.
  rewrite bool_decide_eq_false_2 by (intros [?|?]; congruence).
  unfold finally, mbind, M_bind, mret, M_ret.
  destruct (ensure_language_ok (open_session db) eq_refl eq_refl)
    as (s1 & lang & -> & Hid & Hl1 & Ht1 & Hnl1 & Hnt1 & Hd1).
  cbn [open_session committed closed] in *.
  destruct (insert_terms_ok (lang_id lang) (map_to_list words) 0 0 s1)
    as (s2 & -> & Hc2 & Hl2 & Ht2 & Hn2 & Hd2).
  destruct (commit_ok s2) as (s3 & -> & Hc3 & Hl3 & Ht3 & Hn3 & Hd3).
  cbv zeta. cbn [fst snd close committed closed].
  rewrite Hc3. cbn [languages terms].
  rewrite Hc2, Hl2, Hnl1, Ht2, Hnt1, Ht1, Hl1, Hid. cbn [insert_languages app].
  split_and!; try done.
  do 2 f_equal; rewrite ?length_map_to_list; lia.
Qed.

(** X18.  When no call on the session raises, [save_words_to_database] returns
    the number of pairs that had no record in the store and the number that
    had one, adds one record for each of the former, made for the Arabic
    row, and adds the Arabic row itself only when the store had none. *)
Theorem store_run_without_failures (url : string) (db : store)
    (words : gmap string string) :
  url ≠ EmptyString →
  let out := save_words_to_database never_fails (Some url) db words in
  let lid := arabic_id (languages db) in
  let miss := missing lid (terms db) (map_to_list words) in
  out.2 = Some (Z.of_nat (length miss),
                Z.of_nat (size words) - Z.of_nat (length miss))
  ∧ languages (committed out.1) = with_arabic (languages db)
  ∧ terms (committed out.1) = terms db ++ (term_of lid <$> miss)
  ∧ closed out.1 = true.
Proof.
  intros Hurl out lid miss.
  destruct (store_run_ok url db words Hurl) as (Hr & Hl & Ht & Hc).
  split_and!.
  - exact Hr.
  - exact Hl.
  - exact Ht.
  - exact Hc.
Qed.

Lemma store_run_without_failures_witness :
  (save_words_to_database never_fails (Some "db")
     {| languages := []; terms := [] |} {[ "a" := "one"; "b" := "two" ]}).2
  = Some (2, 0).
Proof.
  refine (eq_trans (proj1 (store_run_without_failures "db" _ _ _)) _);
    [done | by vm_compute].
Defined.

(** X19.  Saving the same words twice, with no call raising: the second run adds
    nothing, counts every pair as existing and leaves the store as the
    first run left it. *)
Theorem store_save_twice (url : string) (db : store) (words : gmap string string) :
  url ≠ EmptyString →
  let first := save_words_to_database never_fails (Some url) db words in
  let second :=
    save_words_to_database never_fails (Some url) (committed first.1) words in
  second.2 = Some (0, Z.of_nat (size words))
  ∧ committed second.1 = committed first.1.
Proof.
  intros Hurl first second.
  destruct (store_run_ok url db words Hurl)
    as (_ & Hl1 & Ht1 & _). fold first in Hl1, Ht1.
  destruct (store_run_ok url (committed first.1) words Hurl)
    as (Hr2 & Hl2 & Ht2 & _). fold second in Hr2, Hl2, Ht2.
  destruct (with_arabic_once (languages db)) as [Hww Hwid].
  rewrite Hl1, Hww in Hl2. rewrite Hl1, Hwid, Ht1 in Hr2, Ht2.
  rewrite missing_after_insert in Hr2, Ht2. simpl in Hr2, Ht2.
  rewrite app_nil_r in Ht2. split.
  - rewrite Hr2. do 2 f_equal. lia.
  - destruct (committed second.1), (committed first.1). simpl in *. congruence.
Qed.

Lemma store_save_twice_witness :
  (save_words_to_database never_fails (Some "db")
     (committed (save_words_to_database never_fails (Some "db")
        {| languages := []; terms := [] |} {[ "a" := "one"; "b" := "two" ]}).1)
     {[ "a" := "one"; "b" := "two" ]}).2
  = Some (0, 2).
Proof.
  refine (eq_trans (proj1 (store_save_twice "db" _ _ _)) _);
    [done | by vm_compute].
Defined.

End StoreRuns.

(** ** The whole run of the scraping module *)

Section WholeRun.

Import Scraper.

Variable fails : nat → bool.

Lemma save_counts database_url db words a k :
  (save_words_to_database fails database_url db words).2 = Some (a, k) →
  a + k = Z.of_nat (size words).
Proof.
  unfold save_words_to_database. case_bool_decide; [done|].
  unfold finally, mbind, M_bind, mret, M_ret.
  destruct (ensure_language_spec fails (open_session db) eq_refl eq_refl)
    as (s1 & r1 & -> & _).
  destruct r1 as [lang|]; cbv zeta; cbn [snd]; [|done].
  destruct (insert_terms_spec fails (lang_id lang) (map_to_list words) 0 0 s1)
    as (s2 & r2 & new & -> & _ & _ & _ & _ & _ & Hr2).
  destruct r2 as [[a' k']|]; cbn [snd]; [|done].
  destruct (Hr2 a' k' eq_refl) as [-> Hk].
  destruct (commit_spec fails s2) as (s3 & r3 & -> & _ & [(-> & _) | (-> & _)]);
    cbn [snd]; [done|].
  intros [= <- <-]. rewrite length_map_to_list in Hk. lia.
Qed.

(** X20.  What [main_async] leaves behind when it ends.  If it wrote no file, it
    did not touch the store and printed no counts.  If it wrote the file,
    the rows read back are the collected dict, whatever happens in the store
    afterwards (a missing connection string included), and counts that are
    printed add up to the number of its entries. *)
Theorem main_async_effects (database_url : option string) (db : store)
    (page0 : node) (rounds : list round) (e : Pipeline.effects) :
  Pipeline.main_async fails database_url db page0 rounds = Pipeline.Finished e →
  (Pipeline.file e = None →
   Pipeline.store_after e = db ∧ Pipeline.printed e = None)
  ∧ (∀ rows, Pipeline.file e = Some rows →
       ∃ r words,
         scrape_duolingo_words page0 rounds = Some r
         ∧ words = final r
         ∧ StoreSpec.read_rows rows = Some words
         ∧ ∀ a k, Pipeline.printed e = Some (a, k) → a + k = Z.of_nat (size words)).
Proof.
  unfold Pipeline.main_async.
  destruct (scrape_duolingo_words page0 rounds) as [r|]; [|by intros [= <-]].
  destruct (exit r);
    try (by intros [= <-]);
    (intros [= <-]; split; [done|]; intros rows [= <-];
     exists r, (final r); split_and!; [done | done | apply read_rows_save |];
     intros a k; apply save_counts).
Qed.

End WholeRun.

Lemma main_async_effects_witness :
  ∃ e,
    Pipeline.main_async (λ _, false) None
      {| Scraper.languages := []; Scraper.terms := [] |}
      (Sample.root_page [Sample.h2 "1 words"] [Sample.item "c" "a" "one"])
      [Sample.shows
         (Sample.root_page [Sample.h2 "1 words"] [Sample.item "c" "a" "one"]) true]
    = Pipeline.Finished e
    ∧ Pipeline.printed e = None
    ∧ StoreSpec.read_rows
        [["target_language_term"; "english_term"]; ["a"; "one"]]
      = Some {[ "a" := "one" ]}.
Proof.
  eexists. split; [vm_compute; reflexivity|]. split; [done|].
  pose proof (proj2 (main_async_effects (λ _, false) None
    {| Scraper.languages := []; Scraper.terms := [] |}
    (Sample.root_page [Sample.h2 "1 words"] [Sample.item "c" "a" "one"])
    [Sample.shows
       (Sample.root_page [Sample.h2 "1 words"] [Sample.item "c" "a" "one"]) true]
    _ eq_refl) _ eq_refl) as (r & words & Hr & -> & Hrows & _).
  vm_compute in Hr. injection Hr as <-. exact Hrows.
Defined.

(** ** Two containers with the same primary term *)

Lemma scrape_item_entry words c words' :
  Scraper.scrape_item words c = Some words' →
  words' = match Container.entry c with
           | Some (k, v) => <[k := v]> words
           | None => words
           end.
Proof.
  unfold Scraper.scrape_item, Container.entry.
  destruct (first_text "h3" c) as [h3|]; [|done]. simpl.
  destruct (first_text "p" c) as [p|]; [|done]. simpl.
  destruct (Py.is_empty h3 || Py.is_empty p); [by intros [= <-]|].
  destruct (nonempty (Py.strip h3) && nonempty (Py.strip p)); by intros [= <-].
Qed.

Lemma scrape_fold_keeps l acc words k v :
  foldl (λ acc container, words ← acc; Scraper.scrape_item words container)
        (Some acc) l = Some words →
  acc !! k = Some v →
  Forall (λ c, ∀ v', Container.entry c ≠ Some (k, v')) l →
  words !! k = Some v.
Proof.
  revert acc. induction l as [|c l IH]; intros acc Hf Hk Hall; simpl in Hf.
  { by simplify_eq. }
  apply Forall_cons in Hall as [Hc Hall].
  destruct (Scraper.scrape_item acc c) as [acc'|] eqn:Hitem.
  2:{ clear -Hf. exfalso. induction l as [|c' l IH]; [done|]. exact (IH Hf). }
  apply (IH acc' Hf); [|done].
  apply scrape_item_entry in Hitem as ->.
  destruct (Container.entry c) as [[k' v']|] eqn:He; [|done].
  rewrite lookup_insert_ne; [done|]. intros ->. by eapply Hc.
Qed.

(** X21.  When several containers of a page give the same primary term, the dict
    that [_scrape_visible_words] returns holds the secondary term of the
    last of them. *)
Theorem scrape_last_container_wins (page : node) (words : gmap string string)
    (l1 l2 : list node) (c : node) (k v : string) :
  Scraper._scrape_visible_words page = Some words →
  Scraper.item_locator page = l1 ++ c :: l2 →
  Container.entry c = Some (k, v) →
  Forall (λ c', ∀ v', Container.entry c' ≠ Some (k, v')) l2 →
  words !! k = Some v.
Proof.
  unfold Scraper._scrape_visible_words. intros Hw Hloc He Hall.
  rewrite Hloc, foldl_app in Hw. cbn [foldl] in Hw.
  destruct (foldl _ (Some ∅) l1) as [acc1|] eqn:H1.
  2:{ exfalso. simpl in Hw. clear -Hw. induction l2 as [|c' l IH]; [done|].
      exact (IH Hw). }
  simpl in Hw.
  destruct (Scraper.scrape_item acc1 c) as [acc2|] eqn:Hitem.
  2:{ exfalso. clear -Hw. induction l2 as [|c' l IH]; [done|]. exact (IH Hw). }
  apply (scrape_fold_keeps l2 acc2 words k v Hw); [|done].
  apply scrape_item_entry in Hitem as ->. rewrite He. apply lookup_insert_eq.
Qed.

Lemma scrape_last_container_wins_witness :
  ({[ "a" := "two" ]} : gmap string string) !! "a" = Some "two".
Proof.
  refine (scrape_last_container_wins
    (Sample.root_page [] [Sample.item "c" "a" "one"; Sample.item "c" "a " "two"])
    _ [Sample.card "a" "one"] [] (Sample.card "a " "two") "a" "two" _ _ _ _);
    [by vm_compute | by vm_compute | by vm_compute | constructor].
Defined.

(** ** The driver in the round that stalls *)

Lemma script_stalled_last_round rounds expected acc st :
  exit (Script.collect expected acc st rounds) = Stalled →
  ∃ pre b a acted,
    events (Script.collect expected acc st rounds)
    = pre ++ EvExtract b a :: EvReveal acted
          :: (if acted then [] else [EvSettle]).
Proof.
  revert acc st. induction rounds as [|r rounds IH]; intros acc st Hexit; [done|].
  destruct (script_round expected acc st r rounds)
    as [(_ & _ & Heq) | [(_ & _ & Heq) | (_ & _ & Heq)]];
    rewrite Heq in *; clear Heq; cbn [events exit after_events] in *; [done|..].
  - by eexists [], _, _, _.
  - destruct (IH _ _ Hexit) as (pre & b & a & acted & ->).
    eexists (_ ++ pre), b, a, acted. by rewrite <- app_assoc.
Qed.

Lemma scraper_stalled_last_round rounds expected_total acc last_count st :
  exit (Scraper.collect expected_total acc last_count st rounds) = Stalled →
  ∃ pre b a,
    events (Scraper.collect expected_total acc last_count st rounds)
    = pre ++ [EvExtract b a].
Proof.
  revert acc last_count st.
  induction rounds as [|r rounds IH]; intros acc last_count st Hexit; [done|].
  destruct (scraper_round expected_total acc last_count st r rounds)
    as [(_ & Heq) | (current & _ & [(_ & Heq) | [(_ & _ & Heq)
         | [(_ & _ & _ & Heq) | (_ & _ & _ & Heq)]]])];
    rewrite Heq in *; clear Heq; cbn [events exit after_events] in *; try done.
  - by eexists [], _, _.
  - destruct (IH _ _ _ Hexit) as (pre & b & a & ->).
    by eexists (_ :: _ :: pre), b, a.
Qed.

(** X22.  The two loops differ in the round that stalls.  The script calls the
    reveal-more driver (and the extra settle when the driver did nothing)
    before it checks the stagnation counter, so its last round still ends
    with a call of the driver; the scraping module checks first, and its
    last round ends with the extraction. *)
Theorem stalled_round_driver (expected : Z) (rounds : list round) :
  (∀ acc st,
     exit (Script.collect expected acc st rounds) = Stalled →
     ∃ pre b a acted,
       events (Script.collect expected acc st rounds)
       = pre ++ EvExtract b a :: EvReveal acted
             :: (if acted then [] else [EvSettle]))
  ∧ (∀ acc last_count st,
       exit (Scraper.collect expected acc last_count st rounds) = Stalled →
       ∃ pre b a,
         events (Scraper.collect expected acc last_count st rounds)
         = pre ++ [EvExtract b a]).
Proof.
  split.
  - intros acc st. apply script_stalled_last_round.
  - intros acc last_count st. apply scraper_stalled_last_round.
Qed.

Lemma stalled_round_driver_witness :
  ∃ pre b a acted,
    events (Script.collect (-1) ∅ 0
      (replicate 3 (Sample.shows (Sample.list_page [] []) false)))
    = pre ++ EvExtract b a :: EvReveal acted
          :: (if acted then [] else [EvSettle]).
Proof.
  refine (proj1 (stalled_round_driver (-1) _) ∅ 0 _). by vm_compute.
Defined.
